(** * PDF form filling: AcroForm field tables and XFA datasets

    A shallow embedding of the form tools of this repository
    (fill_acroform.py, extract_acroform.py, fill_xfa.py, src/xfa_extract.py,
    detect_form_type.py) and the properties their specification states.

    Conventions of the embedding.
    - A Python [str] is a [string]; characters are read as ASCII, which is
      what [lower] and [strip] below implement.  Messages that the source
      writes with non-ASCII letters are kept as their UTF-8 bytes.
    - A pikepdf dictionary is a record of the keys the programs read
      ([/T], [/FT], [/Ff], [/Subtype], [/AP], [/Kids]) and write ([/V],
      [/AS]).  A PDF name is kept by its body; [str] of a name is the body
      after a slash ([name_str]).
    - An object graph is a finite tree: a [/Kids] array that leads back to
      an ancestor is not represented.
    - A Python exception is a value of [py_exn] carried by [result]. *)

From Stdlib Require Import String Ascii List ZArith NArith Bool Lia Permutation.
From Stdlib Require Import DecimalString Sorted.
Import ListNotations.

Set Warnings "-register-all".
Local Open Scope string_scope.
Local Open Scope list_scope.

(** ** Python values and exceptions *)

Inductive py_exn : Type :=
| IndexError
| ValueError (msg : string)
| FileNotFoundError (msg : string)
| PdfError.

Inductive result (A : Type) : Type :=
| Ok (a : A)
| Raise (e : py_exn).

Arguments Ok {A} a.
Arguments Raise {A} e.

Definition bind {A B : Type} (r : result A) (k : A -> result B) : result B :=
  match r with
  | Ok a => k a
  | Raise e => Raise e
  end.

Notation "x <- r ;; k" := (bind r (fun x => k))
  (at level 61, r at next level, right associativity).

(** A float as far as the programs observe it: its truth value
    ([bool(f)], false exactly for zero) and its [str]. *)
Record pyfloat : Type := mkFloat { float_nonzero : bool; float_str : string }.

(** What [json.load] yields. *)
Inductive value : Type :=
| VNone
| VBool (b : bool)
| VInt (n : Z)
| VFloat (f : pyfloat)
| VStr (s : string)
| VList (l : list value)
| VDict (d : list (string * value)).

(** ** Strings *)

Definition nonempty (s : string) : bool :=
  match s with
  | EmptyString => false
  | String _ _ => true
  end.

Definition lower_ascii (c : ascii) : ascii :=
  let n := N_of_ascii c in
  if (65 <=? n)%N && (n <=? 90)%N then ascii_of_N (n + 32) else c.

(** [s.lower()] *)
Fixpoint lower (s : string) : string :=
  match s with
  | EmptyString => EmptyString
  | String c r => String (lower_ascii c) (lower r)
  end.

(** The characters [str.strip()] removes: tab to carriage return, the four
    separators 28 to 31, and the space. *)
Definition is_space (c : ascii) : bool :=
  let n := N_of_ascii c in
  ((9 <=? n)%N && (n <=? 13)%N) || ((28 <=? n)%N && (n <=? 32)%N).

Fixpoint lstrip (s : string) : string :=
  match s with
  | EmptyString => EmptyString
  | String c r => if is_space c then lstrip r else s
  end.

(** Removes trailing white space: a character is kept when it is not a
    space or when something is kept after it. *)
Fixpoint rstrip (s : string) : string :=
  match s with
  | EmptyString => EmptyString
  | String c r =>
      match rstrip r with
      | EmptyString => if is_space c then EmptyString else String c EmptyString
      | r' => String c r'
      end
  end.

(** [s.strip()] *)
Definition strip (s : string) : string := rstrip (lstrip s).

(** [sep.join(parts)] *)
Fixpoint join (sep : string) (parts : list string) : string :=
  match parts with
  | [] => ""
  | [p] => p
  | p :: rest => p ++ sep ++ join sep rest
  end.

Definition mem (s : string) (l : list string) : bool :=
  existsb (String.eqb s) l.

(** ** Insertion-ordered dictionaries

    A Python [dict] keeps its keys in the order of their first insertion,
    and the programs iterate over them, so a dictionary is an association
    list without repeated keys. *)

Section Dict.
Context {A : Type}.

Definition dict : Type := list (string * A).

Fixpoint dict_get (k : string) (d : dict) : option A :=
  match d with
  | [] => None
  | (k', v) :: r => if String.eqb k k' then Some v else dict_get k r
  end.

(** [d[k] = v]: the value is replaced where the key stands, a new key
    goes to the end. *)
Fixpoint dict_set (k : string) (v : A) (d : dict) : dict :=
  match d with
  | [] => [(k, v)]
  | (k', v') :: r =>
      if String.eqb k k' then (k', v) :: r else (k', v') :: dict_set k v r
  end.

(** [d.setdefault(k, v)] as a statement: an existing key keeps its value. *)
Definition dict_setdefault (k : string) (v : A) (d : dict) : dict :=
  match dict_get k d with
  | Some _ => d
  | None => dict_set k v d
  end.

Definition dict_keys (d : dict) : list string := map fst d.
End Dict.

Arguments dict A : clear implicits.

(** ** PDF objects *)

(** The object under [/Ff]: an integer, or something [int()] refuses. *)
Inductive ffobj : Type :=
| FfInt (n : Z)
| FfOther.

(** A stored value: a PDF string, or the name [pikepdf.Name(s)]. *)
Inductive pdfval : Type :=
| PdfString (s : string)
| PdfName (s : string).

(** The appearance dictionary [/AP]: its [/N] entry, when there is one, is
    given by its keys (name bodies) in the order [keys()] yields them. *)
Record apdict : Type := mkAP { N : option (list string) }.

Local Unset Elimination Schemes.

Inductive pdfobj : Type :=
  mkObj {
    T : option string;
    FT : option string;
    Ff : option ffobj;
    Subtype : option string;
    AP : option apdict;
    V : option pdfval;
    AS : option pdfval;
    Kids : list pdfobj
  }.

Local Set Elimination Schemes.

(** Induction over an object with the hypothesis for all of its kids. *)
Fixpoint pdfobj_ind (P : pdfobj -> Prop)
    (step : forall o, Forall P (Kids o) -> P o) (o : pdfobj) {struct o} : P o :=
  step o
    (match o as o' return Forall P (Kids o') with
     | mkObj _ _ _ _ _ _ _ kids =>
         (fix all (l : list pdfobj) : Forall P l :=
            match l with
            | [] => Forall_nil P
            | k :: r => Forall_cons k (pdfobj_ind P step k) (all r)
            end) kids
     end).

Definition name_str (n : string) : string := String "/" n.

(** [to_str] on a string object and on a name object. *)
Definition to_str (o : option string) : string :=
  match o with
  | Some s => s
  | None => ""
  end.

Definition to_str_name (o : option string) : string :=
  match o with
  | Some n => name_str n
  | None => ""
  end.

Definition name_of (field : pdfobj) : string := to_str (T field).

Definition is_widget (obj : pdfobj) : bool :=
  String.eqb (to_str_name (Subtype obj)) "/Widget".

(** ** Field tree flattener ([walk_fields], [flatten_all_fields]) *)

Record entry : Type :=
  mkEntry { name : string; field : pdfobj; widgets : list pdfobj }.

Definition full_name_of (parent_name current_name : string) : string :=
  if nonempty parent_name && nonempty current_name
  then parent_name ++ "." ++ current_name
  else if nonempty current_name then current_name else parent_name.

Definition widgets_of (fld : pdfobj) : list pdfobj :=
  filter is_widget (Kids fld).

Definition child_fields_of (fld : pdfobj) : list pdfobj :=
  filter (fun k => negb (is_widget k)) (Kids fld).

Definition own_entry (fld : pdfobj) (full_name : string) : list entry :=
  match FT fld with
  | Some _ => [mkEntry full_name fld (widgets_of fld)]
  | None => []
  end.

(** The loop over the kids that are fields runs inside the recursion, so
    that each call is on a kid of the object; [walk_fields_unfold] gives the
    shape of the source. *)
Fixpoint walk_fields (fld : pdfobj) (parent_name : string) {struct fld}
  : list entry :=
  let full_name := full_name_of parent_name (name_of fld) in
  (match fld with
   | mkObj _ _ _ _ _ _ _ kids =>
       (fix over (ks : list pdfobj) : list entry :=
          match ks with
          | [] => []
          | k :: r =>
              if is_widget k then over r
              else walk_fields k full_name ++ over r
          end) kids
   end) ++ own_entry fld full_name.

Definition flatten_all_fields (fields : list pdfobj) : list entry :=
  flat_map (fun fld => walk_fields fld "") fields.

(** The nodes of the field tree, each with its full name: a node comes
    after the nodes of its child fields, child fields in the order of
    [/Kids]; widgets are not nodes. *)
Fixpoint field_nodes (fld : pdfobj) (parent_name : string) {struct fld}
  : list (string * pdfobj) :=
  let full_name := full_name_of parent_name (name_of fld) in
  (match fld with
   | mkObj _ _ _ _ _ _ _ kids =>
       (fix over (ks : list pdfobj) : list (string * pdfobj) :=
          match ks with
          | [] => []
          | k :: r =>
              if is_widget k then over r
              else field_nodes k full_name ++ over r
          end) kids
   end) ++ [(full_name, fld)].

Definition forest_nodes (fields : list pdfobj) : list (string * pdfobj) :=
  flat_map (fun fld => field_nodes fld "") fields.

Definition has_type (node : string * pdfobj) : bool :=
  match FT (snd node) with
  | Some _ => true
  | None => false
  end.

Definition entry_of_node (node : string * pdfobj) : entry :=
  mkEntry (fst node) (snd node) (widgets_of (snd node)).

(** ** Appearance inspector ([get_appearance_names], the same function in
    fill_acroform.py and extract_acroform.py) *)

Definition default_appearance : list string * string := (["/Yes"], "/Off").

(** [not ap] holds without [/AP] and for a dictionary without keys;
    [not normal] holds without [/N] and for an [/N] without keys. *)
Definition get_appearance_names (widget : pdfobj) : list string * string :=
  match AP widget with
  | None => default_appearance
  | Some ap =>
      match N ap with
      | None => default_appearance
      | Some [] => default_appearance
      | Some keys =>
          let names := map name_str keys in
          let off_name := if mem "/Off" names then "/Off" else "/Off" in
          let on_names := filter (fun n => negb (String.eqb n off_name)) names in
          match on_names with
          | [] => (["/Yes"], off_name)
          | _ => (on_names, off_name)
          end
      end
  end.

(** ** Field flags *)

Definition get_field_flags (fld : pdfobj) : Z :=
  match Ff fld with
  | Some (FfInt n) => n
  | Some FfOther => 0
  | None => 0
  end.

Definition is_read_only (ff : Z) : bool :=
  negb (Z.eqb (Z.land ff (Z.shiftl 1 0)) 0).

Definition is_push_button (ff : Z) : bool :=
  negb (Z.eqb (Z.land ff (Z.shiftl 1 16)) 0).

Definition is_radio (ff : Z) : bool :=
  negb (Z.eqb (Z.land ff (Z.shiftl 1 15)) 0).

(** ** Typed value applier for buttons ([normalize_on_value],
    [set_checkbox_or_radio]) *)

(** [candidates[0]] *)
Definition first_candidate (candidates : list string) : result (option string) :=
  match candidates with
  | c :: _ => Ok (Some c)
  | [] => Raise IndexError
  end.

Definition with_slash (v : string) : string :=
  match v with
  | String "/" _ => v
  | _ => String "/" v
  end.

Definition normalize_on_value (val : value) (candidates : list string)
  : result (option string) :=
  match val with
  | VBool b => if b then first_candidate candidates else Ok None
  | VInt n => if negb (Z.eqb n 0) then first_candidate candidates else Ok None
  | VFloat f => if float_nonzero f then first_candidate candidates else Ok None
  | VStr s =>
      let v := strip s in
      if negb (nonempty v) then Ok None
      else
        let v := with_slash v in
        match find (fun c => String.eqb (lower v) (lower c)) candidates with
        | Some c => Ok (Some c)
        | None =>
            if mem (lower v) ["/yes"; "/on"; "/true"; "/1"]
            then first_candidate candidates
            else first_candidate candidates
        end
  | VNone | VList _ | VDict _ => Ok None
  end.

Definition set_V (fld : pdfobj) (v : pdfval) : pdfobj :=
  mkObj (T fld) (FT fld) (Ff fld) (Subtype fld) (AP fld) (Some v) (AS fld)
    (Kids fld).

Definition set_AS (w : pdfobj) (v : pdfval) : pdfobj :=
  mkObj (T w) (FT w) (Ff w) (Subtype w) (AP w) (V w) (Some v) (Kids w).

(** The first loop of [set_checkbox_or_radio]: the on-names of all the
    widgets without repetition, and the off-name seen last. *)
Definition add_new (acc : list string) (n : string) : list string :=
  if mem n acc then acc else acc ++ [n].

Definition collect_step (st : list string * string) (w : pdfobj)
  : list string * string :=
  let '(all_on_names, off_name) := st in
  let '(on_names, off) := get_appearance_names w in
  (fold_left add_new on_names all_on_names,
   if nonempty off then off else off_name).

Definition collect_names (widgets : list pdfobj) : list string * string :=
  fold_left collect_step widgets ([], "/Off").

(** [if selected_on:] takes a name that is not the empty string. *)
Definition truthy_name (o : option string) : option string :=
  match o with
  | Some s => if nonempty s then Some s else None
  | None => None
  end.

Definition radio_state (selected_on : string) (w : pdfobj) : pdfobj :=
  let '(on_names, off) := get_appearance_names w in
  if mem selected_on on_names
  then set_AS w (PdfName selected_on)
  else set_AS w (PdfName off).

Definition checkbox_state (w : pdfobj) : pdfobj :=
  let '(on_names, off) := get_appearance_names w in
  let on := match on_names with
            | n :: _ => n
            | [] => "/Yes"
            end in
  set_AS w (PdfName on).

(** [normalize_on_value(value, all_on_names) if all_on_names else None] *)
Definition select_on (val : value) (all_on_names : list string)
  : result (option string) :=
  match all_on_names with
  | [] => Ok None
  | _ => normalize_on_value val all_on_names
  end.

(** The field and its widgets are mutated in place; the result is the
    field with its new [/V] and the widgets of the call, in the order of
    the call, with their new [/AS].  What is written to a widget depends
    only on its [/AP], which is never written, so an object that stands
    twice in [widgets] receives the same state both times. *)
Definition set_checkbox_or_radio (fld : pdfobj) (widgets : list pdfobj)
    (val : value) : result (pdfobj * list pdfobj) :=
  let ff := get_field_flags fld in
  if is_push_button ff then Ok (fld, widgets)
  else
    let '(all_on_names, off_name) := collect_names widgets in
    selected_on <- select_on val all_on_names ;;
    if is_radio ff then
      match truthy_name selected_on with
      | Some sel =>
          Ok (set_V fld (PdfName sel), map (radio_state sel) widgets)
      | None =>
          Ok (set_V fld (PdfName off_name),
              map (fun w => set_AS w (PdfName off_name)) widgets)
      end
    else
      match truthy_name selected_on with
      | Some sel =>
          Ok (set_V fld (PdfName sel), map checkbox_state widgets)
      | None =>
          Ok (set_V fld (PdfName off_name),
              map (fun w => set_AS w (PdfName off_name)) widgets)
      end.

(** ** Name resolution ([fill_acroform_with_json], the loop over the keys) *)

Definition by_name_of (fields : list entry) : dict entry :=
  fold_left
    (fun d f => if nonempty (name f) then dict_set (name f) f d else d)
    fields [].

(** [d.setdefault(base, []).append(f)] *)
Definition dict_append (base : string) (f : entry) (d : dict (list entry))
  : dict (list entry) :=
  match dict_get base d with
  | Some flist => dict_set base (flist ++ [f]) d
  | None => dict_set base [f] d
  end.

Definition short_names_map_of (fields : list entry) : dict (list entry) :=
  fold_left
    (fun d f =>
       let base := name_of (field f) in
       if nonempty base then dict_append base f d else d)
    fields [].

(** [flist[0]] *)
Definition first_entry (flist : list entry) : result (option entry) :=
  match flist with
  | c :: _ => Ok (Some c)
  | [] => Raise IndexError
  end.

(** The entry a key's value is applied to, [None] when the key is
    skipped. *)
Definition resolve (fields : list entry) (key : string)
  : result (option entry) :=
  let by_name := by_name_of fields in
  let short_names_map := short_names_map_of fields in
  match dict_get key by_name with
  | Some fentry => Ok (Some fentry)
  | None =>
      let candidates :=
        match dict_get key short_names_map with
        | Some l => l
        | None => []
        end in
      if Nat.eqb (length candidates) 1 then first_entry candidates
      else
        let lc_key := lower key in
        match find (fun nf => String.eqb (lower (fst nf)) lc_key) by_name with
        | Some (_, match_full) => Ok (Some match_full)
        | None =>
            match
              find (fun bf => String.eqb (lower (fst bf)) lc_key
                              && Nat.eqb (length (snd bf)) 1)
                short_names_map
            with
            | Some (_, flist) => first_entry flist
            | None => Ok None
            end
        end
  end.

(** ** Fillable-field listing ([write_fillable_list]) *)

Definition newline : string := String (ascii_of_nat 10) EmptyString.

Fixpoint fillable_lines (fields : list entry) : list string :=
  match fields with
  | [] => []
  | f :: rest =>
      let full_name := name f in
      let ft := to_str_name (FT (field f)) in
      let ff := get_field_flags (field f) in
      if negb (nonempty full_name) then fillable_lines rest
      else if is_read_only ff then fillable_lines rest
      else if String.eqb ft "/Btn" && is_push_button ff then fillable_lines rest
      else if String.eqb ft "/Sig" then fillable_lines rest
      else full_name :: fillable_lines rest
  end.

(** The text written to the file. *)
Definition write_fillable_list (fields : list entry) : string :=
  let lines := fillable_lines fields in
  match lines with
  | [] => ""
  | _ => join newline lines ++ newline
  end.

(** ** XML trees (lxml elements)

    An element has an optional namespace, a local name, attributes, a text
    and its child elements in document order; comments and processing
    instructions are left out. *)

Local Unset Elimination Schemes.

Inductive element : Type :=
  mkElem {
    ns : option string;
    tag : string;
    attrib : list (string * string);
    text : option string;
    children : list element
  }.

Local Set Elimination Schemes.

Fixpoint element_ind (P : element -> Prop)
    (step : forall e, Forall P (children e) -> P e) (e : element) {struct e}
  : P e :=
  step e
    (match e as e' return Forall P (children e') with
     | mkElem _ _ _ _ kids =>
         (fix all (l : list element) : Forall P l :=
            match l with
            | [] => Forall_nil P
            | k :: r => Forall_cons k (element_ind P step k) (all r)
            end) kids
     end).

(** [el.get(key)] *)
Definition get_attr (key : string) (el : element) : option string :=
  dict_get key (attrib el).

(** The element and everything below it, in document order. *)
Fixpoint self_and_descendants (e : element) {struct e} : list element :=
  e :: (match e with
        | mkElem _ _ _ _ kids =>
            (fix over (l : list element) : list element :=
               match l with
               | [] => []
               | k :: r => self_and_descendants k ++ over r
               end) kids
        end).

Definition descendants (e : element) : list element :=
  flat_map self_and_descendants (children e).

(** [el.findall('.//{*}local')] and [el.find('.//{*}local')]: the elements
    below [el] with that local name, in any namespace. *)
Definition findall_local (local : string) (el : element) : list element :=
  filter (fun d => String.eqb (tag d) local) (descendants el).

Definition find_local (local : string) (el : element) : option element :=
  hd_error (findall_local local el).

(** ** XFA template analyzer ([get_bindings_from_template],
    [get_som_paths_from_template]) *)

(** The body of both loops of [get_bindings_from_template]. *)
Definition record_binding (out : dict string) (el : element) : dict string :=
  match get_attr "name" el with
  | None => out
  | Some nm =>
      if negb (nonempty nm) then out
      else
        match find_local "bind" el with
        | None => out
        | Some bnd =>
            match get_attr "ref" bnd with
            | None => out
            | Some ref => if nonempty ref then dict_set nm ref out else out
            end
        end
  end.

(** The argument is the parsed template; [None] stands for a parse that
    raises, which the [except] clause turns into the empty map. *)
Definition get_bindings_from_template (parsed : option element) : dict string :=
  match parsed with
  | None => []
  | Some root =>
      let out := fold_left record_binding (findall_local "field" root) [] in
      fold_left record_binding (findall_local "exclGroup" root) out
  end.

(** The named fields below an element in document order, each with the
    names of its [subform] ancestors, nearest first ([getparent] followed
    to the root); [above] holds the names collected at and above [e]. *)
Definition subform_name (e : element) : list string :=
  if String.eqb (tag e) "subform" then
    match get_attr "name" e with
    | Some n => if nonempty n then [n] else []
    | None => []
    end
  else [].

Fixpoint named_fields (above : list string) (e : element) {struct e}
  : list (string * list string) :=
  let here :=
    if String.eqb (tag e) "field" then
      match get_attr "name" e with
      | Some n => if nonempty n then [(n, n :: above)] else []
      | None => []
      end
    else [] in
  here ++
  (match e with
   | mkElem _ _ _ _ kids =>
       (fix over (l : list element) : list (string * list string) :=
          match l with
          | [] => []
          | k :: r => named_fields (subform_name e ++ above) k ++ over r
          end) kids
   end).

Definition get_som_paths_from_template (parsed : option element) : dict string :=
  match parsed with
  | None => []
  | Some root =>
      fold_left
        (fun result fn =>
           dict_setdefault (fst fn) (join "." (rev (snd fn))) result)
        (flat_map (named_fields (subform_name root)) (children root)) []
  end.

(** ** Datasets path resolver ([_set_value_by_ref]) *)

Definition is_sep (c : ascii) : bool :=
  Ascii.eqb c "." || Ascii.eqb c "/".

(** [re.split(r"[./]", s)] *)
Fixpoint re_split (s : string) : list string :=
  match s with
  | EmptyString => [""]
  | String c r =>
      if is_sep c then "" :: re_split r
      else
        match re_split r with
        | p :: ps => String c p :: ps
        | [] => [String c ""]
        end
  end.

Definition path_parts (ref : string) : list string :=
  filter nonempty (re_split (strip ref)).

(** After an opening bracket: a closing bracket comes before any line
    feed, so that the pattern [\[.*?\]] matches here. *)
Fixpoint closes (s : string) : bool :=
  match s with
  | EmptyString => false
  | String c r =>
      if Ascii.eqb c "]" then true
      else if Ascii.eqb c (ascii_of_nat 10) then false
      else closes r
  end.

(** [re.sub(r"\[.*?\]", "", part)]; [skipping] holds inside a match, up to
    its closing bracket. *)
Fixpoint sub_index (skipping : bool) (s : string) : string :=
  match s with
  | EmptyString => EmptyString
  | String c r =>
      if skipping then sub_index (negb (Ascii.eqb c "]")) r
      else if Ascii.eqb c "[" && closes r then sub_index true r
      else String c (sub_index false r)
  end.

Definition strip_index (part : string) : string := sub_index false part.

Definition path_names (ref : string) : list string :=
  map strip_index (path_parts ref).

Fixpoint find_index {A : Type} (p : A -> bool) (l : list A) : option nat :=
  match l with
  | [] => None
  | x :: r => if p x then Some 0 else option_map S (find_index p r)
  end.

Fixpoint replace_nth {A : Type} (i : nat) (x : A) (l : list A) : list A :=
  match l, i with
  | [], _ => []
  | _ :: r, O => x :: r
  | y :: r, S j => y :: replace_nth j x r
  end.

Definition has_name_attr (n : string) (e : element) : bool :=
  match get_attr "name" e with
  | Some v => String.eqb v n
  | None => false
  end.

Definition plain_tag (n : string) (e : element) : bool :=
  match ns e with
  | None => String.eqb (tag e) n
  | Some _ => false
  end.

(** The child the two [find] calls of the loop select, by its position:
    first a child whose attribute [name] is [n], then a child without
    namespace whose tag is [n]. *)
Definition find_child (n : string) (current : element) : option nat :=
  match find_index (has_name_attr n) (children current) with
  | Some i => Some i
  | None => find_index (plain_tag n) (children current)
  end.

(** [etree.SubElement(current, n)] makes this element the last child. *)
Definition new_element (n : string) : element := mkElem None n [] None [].

Definition set_children (e : element) (kids : list element) : element :=
  mkElem (ns e) (tag e) (attrib e) (text e) kids.

Definition set_text (e : element) (t : string) : element :=
  mkElem (ns e) (tag e) (attrib e) (Some t) (children e).

Definition int_str (n : Z) : string :=
  DecimalString.NilZero.string_of_int (Z.to_int n).

Section Datasets.
(** [json.dumps(v, ensure_ascii=False)] of the JSON library. *)
Variable json_dumps : value -> string.

(** The XML library's test of a tag name: [SubElement] raises
    [ValueError] for a name that fails it.  The names that pass are XML
    names, which the two [find] calls read as plain names. *)
Variable valid_tag : string -> bool.

(** The XML library's test of a text: the setter of [.text] raises
    [ValueError] for a string that fails it (a NUL or another control
    character). *)
Variable valid_text : string -> bool.

Definition value_text (v : value) : string :=
  match v with
  | VDict _ | VList _ => json_dumps v
  | VNone => ""
  | VBool b => if b then "True" else "False"
  | VInt n => int_str n
  | VFloat f => float_str f
  | VStr s => s
  end.

(** The loop over the path and the write of the text: the tree is
    rebuilt along the chain that the source walks and mutates.  The
    result is [None] when the call does not return: for a name that is
    not a valid tag, where [SubElement] raises [ValueError] (or the
    library reads the name as a pattern), and for a text the setter of
    [.text] refuses. *)
Fixpoint set_chain (names : list string) (txt : string) (current : element)
  : option element :=
  match names with
  | [] => if valid_text txt then Some (set_text current txt) else None
  | n :: rest =>
      if valid_tag n then
        match find_child n current with
        | Some i =>
            match nth_error (children current) i with
            | Some child =>
                option_map
                  (fun child' =>
                     set_children current
                       (replace_nth i child' (children current)))
                  (set_chain rest txt child)
            | None => None
            end
        | None =>
            option_map
              (fun child' =>
                 set_children current (children current ++ [child']))
              (set_chain rest txt (new_element n))
        end
      else None
  end.

Definition _set_value_by_ref (data_root : element) (ref : string) (v : value)
  : option element :=
  match path_parts ref with
  | [] => Some data_root
  | parts => set_chain (map strip_index parts) (value_text v) data_root
  end.

(** Following a chain of names from an element by [find_child]. *)
Fixpoint descend (names : list string) (current : element) : option element :=
  match names with
  | [] => Some current
  | n :: rest =>
      match find_child n current with
      | Some i =>
          match nth_error (children current) i with
          | Some child => descend rest child
          | None => None
          end
      | None => None
      end
  end.
End Datasets.

(** The number of elements of a tree. *)
Definition size (e : element) : nat := length (self_and_descendants e).

(** The number of names of a chain that have no element yet: from the
    first name that [find_child] does not find, all the names that
    remain. *)
Fixpoint missing (names : list string) (current : element) : nat :=
  match names with
  | [] => 0
  | n :: rest =>
      match find_child n current with
      | Some i =>
          match nth_error (children current) i with
          | Some child => missing rest child
          | None => 0
          end
      | None => length names
      end
  end.

(** No character of the string passes the test. *)
Fixpoint free_of (p : ascii -> bool) (s : string) : bool :=
  match s with
  | EmptyString => true
  | String c r => negb (p c) && free_of p r
  end.

Definition is_open (c : ascii) : bool := Ascii.eqb c "[".

Definition is_close_or_lf (c : ascii) : bool :=
  Ascii.eqb c "]" || Ascii.eqb c (ascii_of_nat 10).

(** The string without its separators. *)
Fixpoint remove_seps (s : string) : string :=
  match s with
  | EmptyString => EmptyString
  | String c r => if is_sep c then remove_seps r else String c (remove_seps r)
  end.

(** ** Reading a document ([read_xfa_packets], [detect_form_type]) *)

(** An item of the [/XFA] array: its [str] and the bytes
    [_obj_to_bytes] reads from it. *)
Record xfa_item : Type := mkItem { item_str : string; item_bytes : string }.

Inductive xfa_obj : Type :=
| XfaArray (items : list xfa_item)
| XfaSingle (obj : xfa_item).

Record acro_form : Type := mkAcro { XFA : option xfa_obj; Fields : list pdfobj }.

Record catalog : Type := mkCatalog { AcroForm : option acro_form }.

(** What is at a path: nothing, a file [pikepdf.open] raises on, or a
    document, whose [/Root] may be missing. *)
Inductive file : Type :=
| Missing
| Unreadable
| Document (root : option catalog).

Fixpoint lstrip_slash (s : string) : string :=
  match s with
  | String "/" r => lstrip_slash r
  | _ => s
  end.

(** [for i in range(0, len(items) - 1, 2)] *)
Fixpoint read_pairs (items : list xfa_item) (packets : dict string) : dict string :=
  match items with
  | name_obj :: stream_obj :: rest =>
      read_pairs rest
        (dict_set (lstrip_slash (item_str name_obj)) (item_bytes stream_obj) packets)
  | _ => packets
  end.

Definition read_xfa_packets (pdf_path : string) (f : file) : result (dict string) :=
  match f with
  | Missing => Raise (FileNotFoundError ("Nie znaleziono pliku: " ++ pdf_path))
  | Unreadable => Raise PdfError
  | Document None =>
      Raise (ValueError "PDF nie zawiera katalogu /Root – niepoprawny dokument.")
  | Document (Some root) =>
      match AcroForm root with
      | None => Raise (ValueError "PDF nie zawiera /AcroForm – brak XFA.")
      | Some acro =>
          match XFA acro with
          | None => Raise (ValueError "PDF nie zawiera /XFA – brak pakietów XFA.")
          | Some xfa =>
              let packets :=
                match xfa with
                | XfaArray items => read_pairs items []
                | XfaSingle obj => dict_set "xfa" (item_bytes obj) []
                end in
              match packets with
              | [] => Raise (ValueError "Nie udało się odczytać żadnych pakietów XFA.")
              | _ => Ok packets
              end
          end
      end
  end.

Definition detect_form_type (f : file) : string :=
  match f with
  | Missing => "BrakPliku"
  | Unreadable => "BladOdczytu"
  | Document None => "NiepoprawnyPDF"
  | Document (Some root) =>
      match AcroForm root with
      | None => "BrakFormularza"
      | Some acro =>
          match XFA acro with
          | Some _ => "XFA"
          | None => "AcroForm"
          end
      end
  end.

(** The situations the two readers tell apart. *)
Inductive form_class : Type :=
| NoSuchFile
| ReadFailure
| NoRoot
| NoForm
| AcroFormOnly
| HasXfa.

Definition classify (f : file) : form_class :=
  match f with
  | Missing => NoSuchFile
  | Unreadable => ReadFailure
  | Document None => NoRoot
  | Document (Some root) =>
      match AcroForm root with
      | None => NoForm
      | Some acro =>
          match XFA acro with
          | Some _ => HasXfa
          | None => AcroFormOnly
          end
      end
  end.

(** ** Notions the properties are stated with *)

(** The state a widget displays is the name [x]. *)
Definition shows (x : string) (w : pdfobj) : bool :=
  match AS w with
  | Some (PdfName s) => String.eqb s x
  | _ => false
  end.

(** The widget's own candidate set contains [x]. *)
Definition has_candidate (x : string) (w : pdfobj) : bool :=
  mem x (fst (get_appearance_names w)).

Definition own_off_name (w : pdfobj) : string :=
  snd (get_appearance_names w).

(** The values [normalize_on_value] maps to an on-name: [True], a number
    that is not zero, a string that is not blank. *)
Definition truthy (val : value) : bool :=
  match val with
  | VBool b => b
  | VInt n => negb (Z.eqb n 0)
  | VFloat f => float_nonzero f
  | VStr s => nonempty (strip s)
  | VNone | VList _ | VDict _ => false
  end.

Definition has_field_type (t : string) (f : entry) : bool :=
  match FT (field f) with
  | Some n => String.eqb n t
  | None => false
  end.

(** An entry the listing keeps, by the bits of its flags: a name that is
    not empty, bit 0 (read-only) clear, not a button with bit 16 (push
    button) set, not a signature. *)
Definition fillable (f : entry) : bool :=
  let ff := get_field_flags (field f) in
  nonempty (name f)
  && negb (Z.testbit ff 0)
  && negb (has_field_type "Btn" f && Z.testbit ff 16)
  && negb (has_field_type "Sig" f).

(** An entry has a full name, a local name. *)
Definition named (f : entry) : bool := nonempty (name f).

Definition based (f : entry) : bool := nonempty (name_of (field f)).

Definition last_error {A : Type} (l : list A) : option A :=
  hd_error (rev l).

(** The entries of a table with a given full name, and with a given local
    name; an empty name is borne by no entry. *)
Definition full_is (key : string) (f : entry) : bool :=
  nonempty (name f) && String.eqb (name f) key.

Definition local_is (key : string) (f : entry) : bool :=
  nonempty (name_of (field f)) && String.eqb (name_of (field f)) key.

Definition full_like (key : string) (f : entry) : bool :=
  nonempty (name f) && String.eqb (lower (name f)) (lower key).

Definition local_like (key : string) (f : entry) : bool :=
  nonempty (name_of (field f))
  && String.eqb (lower (name_of (field f))) (lower key).

(** The local name of [f], as it is spelled, is borne by one entry only. *)
Definition sole_spelling (fields : list entry) (f : entry) : bool :=
  Nat.eqb (length (filter (local_is (name_of (field f))) fields)) 1.

(** The resolution read off the field table.  Steps 1 and 3 take the last
    entry that bears the full name found; step 4 takes the first entry
    whose local name matches the key without regard to case and is, in its
    own spelling, the local name of that entry alone. *)
Definition resolve_table (fields : list entry) (key : string) : option entry :=
  match last_error (filter (full_is key) fields) with
  | Some f => Some f
  | None =>
      match filter (local_is key) fields with
      | [c] => Some c
      | _ =>
          match find (full_like key) fields with
          | Some g => last_error (filter (full_is (name g)) fields)
          | None =>
              find (fun f => local_like key f && sole_spelling fields f) fields
          end
      end
  end.


(** The binding an element declares: its name with the [ref] of the first
    [bind] below it, when both are there and not empty. *)
Definition binding_of (el : element) : list (string * string) :=
  match get_attr "name" el with
  | None => []
  | Some nm =>
      match find_local "bind" el with
      | None => []
      | Some bnd =>
          match get_attr "ref" bnd with
          | None => []
          | Some ref => if nonempty nm && nonempty ref then [(nm, ref)] else []
          end
      end
  end.

(** The bindings of a template in the order the analyzer meets them: the
    fields in document order, then the exclusion groups. *)
Definition declared_bindings (root : element) : list (string * string) :=
  flat_map binding_of (findall_local "field" root)
  ++ flat_map binding_of (findall_local "exclGroup" root).

Definition binds (nm : string) (b : string * string) : bool :=
  String.eqb (fst b) nm.

(** Objects for the examples. *)
Definition text_field (t : string) : pdfobj :=
  mkObj (Some t) (Some "Tx") None None None None None [].

Definition group (t : string) (kids : list pdfobj) : pdfobj :=
  mkObj (Some t) None None None None None None kids.

Definition widget_with (ap : option apdict) : pdfobj :=
  mkObj None None None (Some "Widget") ap None None [].

Definition button (ff : Z) : pdfobj :=
  mkObj (Some "choice") (Some "Btn") (Some (FfInt ff)) None None None None [].

Definition bound_field (nm ref : string) : element :=
  mkElem None "field" [("name", nm)] None
    [mkElem None "bind" [("ref", ref)] None []].

Definition subform (nm : string) (kids : list element) : element :=
  mkElem None "subform" [("name", nm)] None kids.

Definition template (kids : list element) : element :=
  mkElem None "template" [] None kids.

(** ** More of the form tools *)

(** *** fill_acroform.py: [set_text], [set_choice], [apply_value_to_field]

    [set_text] of the source is [acro_set_text] here, the name [set_text]
    being taken by the text of an XML element. *)

Section Apply.
(** [str(value)] of Python on a value read from JSON. *)
Variable py_str : value -> string.

Definition str_or_empty (val : value) : string :=
  match val with
  | VNone => ""
  | _ => py_str val
  end.

Definition acro_set_text (fld : pdfobj) (val : value) : pdfobj :=
  set_V fld (PdfString (str_or_empty val)).

(** A list sets its first element; the empty list sets nothing. *)
Definition set_choice (fld : pdfobj) (val : value) : pdfobj :=
  match val with
  | VList [] => fld
  | VList (first :: _) => set_V fld (PdfString (py_str first))
  | _ => set_V fld (PdfString (str_or_empty val))
  end.

(** The entry after the call: its field and its widgets as the call left
    them. *)
Definition apply_value_to_field (fentry : entry) (val : value) : result entry :=
  let field_obj := field fentry in
  let ft := to_str_name (FT field_obj) in
  if String.eqb ft "/Tx" then
    Ok (mkEntry (name fentry) (acro_set_text field_obj val) (widgets fentry))
  else if String.eqb ft "/Ch" then
    Ok (mkEntry (name fentry) (set_choice field_obj val) (widgets fentry))
  else if String.eqb ft "/Btn" then
    st <- set_checkbox_or_radio field_obj (widgets fentry) val ;;
    Ok (mkEntry (name fentry) (fst st) (snd st))
  else Ok fentry.
End Apply.

(** What a call never writes: every key of an object but [/V] and [/AS]. *)
Definition same_but_value (o o' : pdfobj) : Prop :=
  T o' = T o /\ FT o' = FT o /\ Ff o' = Ff o /\ Subtype o' = Subtype o
  /\ AP o' = AP o /\ Kids o' = Kids o.

(** A displayed or stored name is the off-name or an on-name of [w]. *)
Definition state_of (w : pdfobj) (v : option pdfval) : Prop :=
  v = Some (PdfName "/Off")
  \/ exists X, In X (fst (get_appearance_names w)) /\ v = Some (PdfName X).

(** *** The full name as a path *)

(** The nodes of the field tree with the local names from the root of the
    tree down to the node, in the order of [field_nodes]. *)
Fixpoint field_paths (fld : pdfobj) (above : list string) {struct fld}
  : list (list string * pdfobj) :=
  let path := above ++ [name_of fld] in
  (match fld with
   | mkObj _ _ _ _ _ _ _ kids =>
       (fix over (ks : list pdfobj) : list (list string * pdfobj) :=
          match ks with
          | [] => []
          | k :: r =>
              if is_widget k then over r
              else field_paths k path ++ over r
          end) kids
   end) ++ [(path, fld)].

(** The names of a path that are not empty, joined by dots. *)
Definition dotted (path : list string) : string :=
  join "." (filter nonempty path).

Definition typed_path (node : list string * pdfobj) : bool :=
  match FT (snd node) with
  | Some _ => true
  | None => false
  end.

(** *** xfa_extract.py: [_sanitize_ref_name],
    [_extract_field_names_from_template_xml],
    [_extract_acroform_field_names], [choose_packet] *)

(** [s[2:]] when [s.startswith("$.")] *)
Definition drop_preamble (s : string) : string :=
  match s with
  | String "$" (String "." r) => r
  | _ => s
  end.

Definition _sanitize_ref_name (ref : string) : option string :=
  if negb (nonempty ref) then None
  else
    let s := drop_preamble (strip ref) in
    let parts := filter nonempty (re_split s) in
    let last :=
      match last_error parts with
      | Some p => p
      | None => s
      end in
    let last := strip_index last in
    if nonempty last then Some last else None.

(** The names an element with the local name [local] adds: its attribute
    [name] when it is not empty. *)
Definition element_names (local : string) (root : element) : list string :=
  flat_map
    (fun el =>
       match get_attr "name" el with
       | Some nm => if nonempty nm then [nm] else []
       | None => []
       end)
    (findall_local local root).

(** [root.findall('.//{*}bind[@ref]')] and what each adds. *)
Definition ref_names (root : element) : list string :=
  flat_map
    (fun el =>
       match get_attr "ref" el with
       | Some ref =>
           if nonempty ref then
             match _sanitize_ref_name ref with
             | Some nm => [nm]
             | None => []
             end
           else []
       | None => []
       end)
    (findall_local "bind" root).

(** The set of names, as the list of the names added in the order of the
    additions; [None] is a parse that raises. *)
Definition _extract_field_names_from_template_xml (parsed : option element)
  : list string :=
  match parsed with
  | None => []
  | Some root =>
      element_names "field" root ++ element_names "exclGroup" root
      ++ ref_names root
  end.

(** [is_readonly] inside [_extract_acroform_field_names] *)
Definition is_readonly (field_dict : pdfobj) : bool :=
  match Ff field_dict with
  | Some (FfInt n) => Z.eqb (Z.land n 1) 1
  | Some FfOther => false
  | None => false
  end.

(** [walk] inside [_extract_acroform_field_names]: the names it adds, in
    the order of the additions.  All the kids are walked, widgets too. *)
Fixpoint walk (field_obj : pdfobj) (parent_parts : list string)
    {struct field_obj} : list string :=
  let name_part := name_of field_obj in
  let parts :=
    parent_parts ++ (if nonempty name_part then [name_part] else []) in
  (match FT field_obj, parts with
   | Some _, _ :: _ =>
       if negb (is_readonly field_obj) then [join "." parts] else []
   | _, _ => []
   end)
  ++ (match field_obj with
      | mkObj _ _ _ _ _ _ _ kids =>
          (fix over (ks : list pdfobj) : list string :=
             match ks with
             | [] => []
             | k :: r => walk k parts ++ over r
             end) kids
      end).

(** The set of the names of [/Fields], as the list of the additions. *)
Definition _extract_acroform_field_names (fields : list pdfobj) : list string :=
  flat_map (fun f => walk f []) fields.

(** [None] is the [StopIteration] that [next(iter(packets.keys()))] raises
    on a dictionary without keys. *)
Definition choose_packet (packets : dict string) (preferred : option string)
  : option (string * string) :=
  let by_preference :=
    match preferred with
    | Some p =>
        if nonempty p
        then option_map (pair p) (dict_get p packets)
        else None
    | None => None
    end in
  match by_preference with
  | Some chosen => Some chosen
  | None =>
      match dict_get "template" packets with
      | Some b => Some ("template", b)
      | None =>
          match dict_get "datasets" packets with
          | Some b => Some ("datasets", b)
          | None =>
              match packets with
              | (nm, _) :: _ => option_map (pair nm) (dict_get nm packets)
              | [] => None
              end
          end
      end
  end.

(** *** The XML library's checks, on ASCII strings

    What lxml accepts as a tag name is an XML name without a colon: a
    letter or an underscore, then letters, digits, hyphens, dots and
    underscores.  A text may hold no control character but tab, line feed
    and carriage return.  Bytes from 128 on, which belong to characters
    beyond ASCII, are let through. *)

Definition is_name_start (c : ascii) : bool :=
  let n := N_of_ascii c in
  ((65 <=? n)%N && (n <=? 90)%N) || ((97 <=? n)%N && (n <=? 122)%N)
  || (n =? 95)%N || (128 <=? n)%N.

Definition is_name_char (c : ascii) : bool :=
  let n := N_of_ascii c in
  is_name_start c || ((48 <=? n)%N && (n <=? 57)%N)
  || (n =? 45)%N || (n =? 46)%N.

Definition xml_tag_ok (s : string) : bool :=
  match s with
  | EmptyString => false
  | String c r =>
      is_name_start c && free_of (fun d => negb (is_name_char d)) r
  end.

Definition is_control (c : ascii) : bool :=
  let n := N_of_ascii c in
  (n <? 32)%N && negb ((n =? 9)%N || (n =? 10)%N || (n =? 13)%N).

Definition xml_text_ok (s : string) : bool := free_of is_control s.

(** *** Elements with their ancestors *)

(** The element and everything below it, in document order, each with
    its ancestors from the outermost one down to its parent; [anc] holds
    the ancestors of [e]. *)
Fixpoint with_ancestors (anc : list element) (e : element) {struct e}
  : list (list element * element) :=
  (anc, e)
  :: (match e with
      | mkElem _ _ _ _ kids =>
          (fix over (l : list element) : list (list element * element) :=
             match l with
             | [] => []
             | k :: r => with_ancestors (anc ++ [e]) k ++ over r
             end) kids
      end).

(** The elements below [root], each with its ancestors from [root] down. *)
Definition below_with_ancestors (root : element)
  : list (list element * element) :=
  flat_map (with_ancestors [root]) (children root).

(** The names of those ancestors whose tag is [subform] and whose name is
    not empty, outermost first. *)
Definition enclosing_subforms (anc : list element) : list string :=
  flat_map
    (fun a =>
       match get_attr "name" a with
       | Some n => if nonempty n then [n] else []
       | None => []
       end)
    (filter (fun a => String.eqb (tag a) "subform") anc).

(** The element is a [field] whose name is [nm], and [nm] is not empty. *)
Definition is_field_named (nm : string) (e : element) : bool :=
  String.eqb (tag e) "field"
  && match get_attr "name" e with
     | Some n => String.eqb n nm && nonempty n
     | None => false
     end.

(** What a [field] element with a name adds to the loop of
    [get_som_paths_from_template]: its name with the names collected on
    the way up, the field first. *)
Definition field_item (occ : list element * element)
  : list (string * list string) :=
  if String.eqb (tag (snd occ)) "field" then
    match get_attr "name" (snd occ) with
    | Some n =>
        if nonempty n then [(n, n :: rev (enclosing_subforms (fst occ)))]
        else []
    | None => []
    end
  else [].

(** *** detect_form_type.py: the exit status of [main] *)

Definition main_status (f : file) : Z :=
  let form_type := detect_form_type f in
  if negb (mem form_type ["BrakPliku"; "NiepoprawnyPDF"; "BladOdczytu"])
  then 0%Z else 1%Z.

Definition starts_with_slash (s : string) : bool :=
  match s with
  | String "/" _ => true
  | _ => false
  end.

(** The names of a map of packets are distinct and none starts with a
    slash. *)
Definition clean_keys (packets : dict string) : Prop :=
  NoDup (dict_keys packets)
  /\ Forall (fun k => starts_with_slash k = false) (dict_keys packets).

(** A name object and a stream object of an [/XFA] array. *)
Definition packet_name (nm : string) : xfa_item := mkItem nm "".

Definition packet_stream (data : string) : xfa_item := mkItem "" data.

(** *** xfa_extract.py: [extract_field_keys] *)

(** [sorted(names)] on strings, by insertion. *)
Fixpoint insert_sorted (x : string) (l : list string) : list string :=
  match l with
  | [] => [x]
  | h :: t => if String.leb x h then x :: l else h :: insert_sorted x t
  end.

Definition sorted (l : list string) : list string :=
  fold_right insert_sorted [] l.

(** The order of the sort: strings by their characters' codes. *)
Definition ascending (a b : string) : Prop := String.leb a b = true.

(** The [/Fields] the AcroForm walk reads when it opens the document. *)
Definition fields_of (f : file) : list pdfobj :=
  match f with
  | Document (Some root) =>
      match AcroForm root with
      | Some acro => Fields acro
      | None => []
      end
  | _ => []
  end.

Section Keys.
(** The XML parser on the bytes of a packet; [None] when it raises. *)
Variable parse : string -> option element.

(** The names before they are sorted: from the template packet, or from
    the single [xfa] packet, and from the AcroForm walk when these gave
    none. *)
Definition collected_names (f : file) (packets : dict string) : list string :=
  let names :=
    match dict_get "template" packets with
    | Some template_bytes =>
        _extract_field_names_from_template_xml (parse template_bytes)
    | None =>
        match dict_get "xfa" packets with
        | Some xfa_bytes =>
            if nonempty xfa_bytes
            then _extract_field_names_from_template_xml (parse xfa_bytes)
            else []
        | None => []
        end
    end in
  match names with
  | [] => _extract_acroform_field_names (fields_of f)
  | _ => names
  end.

Definition extract_field_keys (pdf_path : string) (f : file)
  : result (list string) :=
  packets <- read_xfa_packets pdf_path f ;;
  Ok (sorted (nodup string_dec (collected_names f packets))).
End Keys.

(** *** fill_xfa.py: the writes of [fill_xfa_with_json] *)

(** The calls of [_set_value_by_ref] the four loops make, in order, each
    as the reference and the value written. *)
Definition fill_writes (bindings som_paths : dict string)
    (json_obj : dict value) : list (string * value) :=
  flat_map
    (fun b => match dict_get (snd b) json_obj with
              | Some v => [(snd b, v)]
              | None => []
              end) bindings
  ++ flat_map
       (fun b => match dict_get (fst b) json_obj with
                 | Some v => [(snd b, v)]
                 | None => []
                 end) bindings
  ++ flat_map
       (fun s => match dict_get (fst s) json_obj with
                 | Some v => [(snd s, v)]
                 | None => []
                 end) som_paths
  ++ flat_map
       (fun kv =>
          if negb (mem (fst kv) (dict_keys bindings))
             && negb (mem (fst kv) (map snd bindings))
          then [kv] else [])
       json_obj.

Section Filling.
Variable json_dumps : value -> string.
Variable valid_tag : string -> bool.
Variable valid_text : string -> bool.

(** The writes one after the other on the data root; a write that has no
    result ends the run. *)
Fixpoint apply_writes (writes : list (string * value)) (data_root : element)
  : option element :=
  match writes with
  | [] => Some data_root
  | (ref, v) :: rest =>
      match _set_value_by_ref json_dumps valid_tag valid_text data_root ref v with
      | Some data_root' => apply_writes rest data_root'
      | None => None
      end
  end.
End Filling.

(** * Properties *)

(** ** The flattener *)

Section Flattener.

Lemma over_fields A (g : pdfobj -> list A) (kids : list pdfobj) :
  (fix over (ks : list pdfobj) : list A :=
     match ks with
     | [] => []
     | k :: r => if is_widget k then over r else g k ++ over r
     end) kids
  = flat_map g (filter (fun k => negb (is_widget k)) kids).
Proof.
  induction kids as [|k r IH]; simpl; [reflexivity|].
  destruct (is_widget k); simpl; now rewrite IH.
Qed.

(** The shape of the source: the entries of the child fields, then the
    entry of the node when it has a type. *)
Lemma walk_fields_unfold fld parent_name :
  walk_fields fld parent_name =
  flat_map (fun c => walk_fields c (full_name_of parent_name (name_of fld)))
    (child_fields_of fld)
  ++ own_entry fld (full_name_of parent_name (name_of fld)).
Proof.
  destruct fld; simpl. f_equal. apply over_fields.
Qed.

Lemma field_nodes_unfold fld parent_name :
  field_nodes fld parent_name =
  flat_map (fun c => field_nodes c (full_name_of parent_name (name_of fld)))
    (child_fields_of fld)
  ++ [(full_name_of parent_name (name_of fld), fld)].
Proof.
  destruct fld; simpl. f_equal. apply over_fields.
Qed.

Lemma typed_flat_map A (g h : pdfobj -> list A) (l : list pdfobj) :
  Forall (fun c => g c = h c) l -> flat_map g l = flat_map h l.
Proof.
  induction 1 as [|c r Hc _ IH]; simpl; [reflexivity|].
  now rewrite Hc, IH.
Qed.

Lemma filter_flat_map A B (p : B -> bool) (g : A -> list B) (l : list A) :
  filter p (flat_map g l) = flat_map (fun x => filter p (g x)) l.
Proof.
  induction l as [|x r IH]; simpl; [reflexivity|].
  now rewrite filter_app, IH.
Qed.

Lemma map_flat_map A B C (f : B -> C) (g : A -> list B) (l : list A) :
  map f (flat_map g l) = flat_map (fun x => map f (g x)) l.
Proof.
  induction l as [|x r IH]; simpl; [reflexivity|].
  now rewrite map_app, IH.
Qed.

Lemma walk_fields_nodes fld :
  forall parent_name,
    walk_fields fld parent_name =
    map entry_of_node (filter has_type (field_nodes fld parent_name)).
Proof.
  induction fld as [fld IH] using pdfobj_ind. intro parent_name.
  rewrite walk_fields_unfold, field_nodes_unfold.
  rewrite filter_app, map_app, filter_flat_map, map_flat_map.
  f_equal.
  - apply typed_flat_map. unfold child_fields_of.
    apply Forall_forall. intros c Hc.
    apply filter_In in Hc. destruct Hc as [Hc _].
    rewrite Forall_forall in IH. now apply IH.
  - unfold own_entry, has_type, entry_of_node. simpl.
    destruct (FT fld); reflexivity.
Qed.

Lemma flatten_nodes fields :
  flatten_all_fields fields =
  map entry_of_node (filter has_type (forest_nodes fields)).
Proof.
  unfold flatten_all_fields, forest_nodes.
  rewrite filter_flat_map, map_flat_map.
  apply typed_flat_map, Forall_forall.
  intros fld _. apply walk_fields_nodes.
Qed.

End Flattener.

(** C3. [flatten_all_fields] emits one entry for each node of the field
    tree that carries [/FT] and none for a node without it, in the order of
    a depth-first walk that takes the child fields in the order of [/Kids]
    and a node after its child fields.  A kid whose [/Subtype] is [/Widget]
    is a widget of its parent and not a node.  A node with [/FT] and child
    fields gives the entries of its child-field subtree and its own entry;
    nothing is compared or refused. *)
Theorem flatten_emits_typed_nodes :
  forall fields : list pdfobj,
    flatten_all_fields fields =
      map entry_of_node (filter has_type (forest_nodes fields))
    /\ length (flatten_all_fields fields) =
         length (filter has_type (forest_nodes fields))
    /\ (forall fld parent_name,
          let full_name := full_name_of parent_name (name_of fld) in
          field_nodes fld parent_name =
            flat_map (fun c => field_nodes c full_name) (child_fields_of fld)
            ++ [(full_name, fld)]
          /\ walk_fields fld parent_name =
               flat_map (fun c => walk_fields c full_name) (child_fields_of fld)
               ++ own_entry fld full_name).
Proof.
  intro fields.
  assert (E : flatten_all_fields fields =
              map entry_of_node (filter has_type (forest_nodes fields))).
  { unfold flatten_all_fields, forest_nodes.
    rewrite filter_flat_map, map_flat_map.
    apply typed_flat_map, Forall_forall.
    intros fld _. apply walk_fields_nodes. }
  split; [exact E|]. split.
  - rewrite E. apply length_map.
  - intros fld parent_name full_name. split.
    + apply field_nodes_unfold.
    + apply walk_fields_unfold.
Qed.

(** ** The appearance inspector *)

Section Appearance.

Lemma on_names_nonempty widget :
  fst (get_appearance_names widget) <> [].
Proof.
  unfold get_appearance_names, default_appearance.
  destruct (AP widget) as [ap|]; [|discriminate].
  destruct (N ap) as [keys|]; [|discriminate].
  destruct keys as [|k r]; [discriminate|].
  destruct (filter _ (map name_str (k :: r))); discriminate.
Qed.

Lemma off_name_is_off widget :
  snd (get_appearance_names widget) = "/Off".
Proof.
  unfold get_appearance_names, default_appearance.
  destruct (AP widget) as [ap|]; [|reflexivity].
  destruct (N ap) as [keys|]; [|reflexivity].
  destruct keys as [|k r]; [reflexivity|].
  destruct (mem "/Off" (map name_str (k :: r)));
    destruct (filter _ (map name_str (k :: r))); reflexivity.
Qed.

(** Every on-name is the [str] of a name: it starts with a slash. *)
Lemma on_names_slash widget n :
  In n (fst (get_appearance_names widget)) -> exists b, n = name_str b.
Proof.
  unfold get_appearance_names, default_appearance.
  destruct (AP widget) as [ap|].
  2:{ simpl. intros [<-|[]]. now exists "Yes". }
  destruct (N ap) as [keys|].
  2:{ simpl. intros [<-|[]]. now exists "Yes". }
  destruct keys as [|k r].
  { simpl. intros [<-|[]]. now exists "Yes". }
  set (names := map name_str (k :: r)).
  set (off := if mem "/Off" names then "/Off" else "/Off").
  destruct (filter (fun n0 => negb (String.eqb n0 off)) names) as [|x l] eqn:E.
  - simpl. intros [<-|[]]. now exists "Yes".
  - simpl fst. rewrite <- E. intro H.
    apply filter_In in H. destruct H as [H _].
    unfold names in H. apply in_map_iff in H.
    destruct H as [b [<- _]]. now exists b.
Qed.

End Appearance.

(** C6. A widget whose normal-appearance dictionary has exactly the keys
    [Off] and [Yes], in either order of iteration, has the on-names
    [["/Yes"]] and the off-name ["/Off"]; so has a widget without [/AP] and
    one whose [/AP] has no [/N].  (The names are given as pikepdf prints
    them, with the leading slash.) *)
Theorem appearance_names_off_yes :
  forall widget : pdfobj,
    (forall ap keys,
        AP widget = Some ap -> N ap = Some keys ->
        Permutation keys ["Off"; "Yes"] ->
        get_appearance_names widget = (["/Yes"], "/Off"))
    /\ (AP widget = None -> get_appearance_names widget = (["/Yes"], "/Off"))
    /\ (forall ap,
          AP widget = Some ap -> N ap = None ->
          get_appearance_names widget = (["/Yes"], "/Off")).
Proof.
  intro widget. split; [|split].
  - intros ap keys Hap Hn Hperm.
    unfold get_appearance_names. rewrite Hap, Hn.
    assert (Hk : keys = ["Off"; "Yes"] \/ keys = ["Yes"; "Off"]).
    { apply Permutation_sym in Hperm.
      apply Permutation_length_2_inv in Hperm. tauto. }
    destruct Hk as [-> | ->]; reflexivity.
  - intro Hap. unfold get_appearance_names. now rewrite Hap.
  - intros ap Hap Hn. unfold get_appearance_names. now rewrite Hap, Hn.
Qed.

Lemma appearance_names_off_yes_witness :
  get_appearance_names
    (mkObj None None None (Some "Widget") (Some (mkAP (Some ["Yes"; "Off"])))
       None None [])
  = (["/Yes"], "/Off")
  /\ get_appearance_names
       (mkObj None None None (Some "Widget") None None None [])
     = (["/Yes"], "/Off")
  /\ get_appearance_names
       (mkObj None None None (Some "Widget") (Some (mkAP None)) None None [])
     = (["/Yes"], "/Off").
Proof.
  split; [|split].
  - apply (proj1 (appearance_names_off_yes _) (mkAP (Some ["Yes"; "Off"]))
             ["Yes"; "Off"]); try reflexivity.
    apply perm_swap.
  - apply (proj1 (proj2 (appearance_names_off_yes _))). reflexivity.
  - apply (proj2 (proj2 (appearance_names_off_yes _)) (mkAP None)); reflexivity.
Defined.

(** ** The button applier *)

Section Buttons.

Lemma mem_In s l : mem s l = true <-> In s l.
Proof.
  unfold mem. rewrite existsb_exists. split.
  - intros [x [Hx E]]. apply String.eqb_eq in E. now subst.
  - intro H. exists s. split; [exact H | apply String.eqb_refl].
Qed.

Lemma In_add_new acc n x : In x (add_new acc n) <-> In x acc \/ x = n.
Proof.
  unfold add_new. destruct (mem n acc) eqn:E.
  - apply mem_In in E. split; [tauto|]. intros [H| ->]; assumption.
  - rewrite in_app_iff. simpl. intuition congruence.
Qed.

Lemma In_fold_add_new l : forall acc x,
    In x (fold_left add_new l acc) <-> In x acc \/ In x l.
Proof.
  induction l as [|n r IH]; intros acc x; simpl; [tauto|].
  rewrite IH, In_add_new. intuition congruence.
Qed.

Lemma collect_from_In ws : forall all off x,
    In x (fst (fold_left collect_step ws (all, off))) <->
    In x all \/ exists w, In w ws /\ In x (fst (get_appearance_names w)).
Proof.
  induction ws as [|w r IH]; intros all off x; simpl.
  - split; [tauto|]. intros [H|[w [[] _]]]. exact H.
  - destruct (get_appearance_names w) as [on_names o] eqn:E.
    rewrite IH, In_fold_add_new.
    split.
    + intros [[H|H]|[w' [Hw' Hx]]].
      * now left.
      * right. exists w. rewrite E. auto.
      * right. exists w'. auto.
    + intros [H|[w' [[<-|Hw'] Hx]]].
      * left. now left.
      * left. right. now rewrite E in Hx.
      * right. exists w'. auto.
Qed.

Lemma collect_from_off ws : forall all off,
    off = "/Off" -> snd (fold_left collect_step ws (all, off)) = "/Off".
Proof.
  induction ws as [|w r IH]; intros all off Hoff; simpl; [exact Hoff|].
  destruct (get_appearance_names w) as [on_names o] eqn:E.
  apply IH.
  assert (Ho : o = "/Off") by (now rewrite <- (off_name_is_off w), E).
  now rewrite Ho.
Qed.

Lemma collect_names_In ws x :
  In x (fst (collect_names ws)) <->
  exists w, In w ws /\ In x (fst (get_appearance_names w)).
Proof.
  unfold collect_names. rewrite collect_from_In. simpl. tauto.
Qed.

Lemma collect_names_off ws : snd (collect_names ws) = "/Off".
Proof.
  unfold collect_names. now apply collect_from_off.
Qed.

Lemma collect_names_nonempty ws :
  ws <> [] -> fst (collect_names ws) <> [].
Proof.
  destruct ws as [|w r]; [congruence|]. intros _ Hnil.
  pose proof (on_names_nonempty w) as Hw.
  destruct (fst (get_appearance_names w)) as [|n l] eqn:E; [congruence|].
  assert (Hin : In n (fst (collect_names (w :: r)))).
  { apply collect_names_In. exists w. rewrite E. simpl. auto. }
  rewrite Hnil in Hin. destruct Hin.
Qed.

Lemma collect_names_map (g : pdfobj -> pdfobj) ws :
  (forall w, get_appearance_names (g w) = get_appearance_names w) ->
  collect_names (map g ws) = collect_names ws.
Proof.
  intro Hg. unfold collect_names. generalize ([] : list string, "/Off").
  induction ws as [|w r IH]; intro st; simpl; [reflexivity|].
  unfold collect_step at 2 4. rewrite Hg. apply IH.
Qed.

Lemma first_candidate_ok cands :
  cands <> [] -> exists c, first_candidate cands = Ok (Some c) /\ In c cands.
Proof.
  destruct cands as [|c r]; [congruence|]. intros _.
  exists c. simpl. auto.
Qed.

(** On candidates that are not empty the normalization returns, and what
    it selects is one of the candidates. *)
Lemma normalize_on_value_ok val cands :
  cands <> [] ->
  exists r, normalize_on_value val cands = Ok r
            /\ forall x, r = Some x -> In x cands.
Proof.
  intro Hne.
  destruct (first_candidate_ok cands Hne) as [c [Hc Hin]].
  assert (Hfirst : exists r, first_candidate cands = Ok r
                             /\ forall x, r = Some x -> In x cands).
  { exists (Some c). split; [exact Hc|]. intros x [= <-]. exact Hin. }
  assert (Hnone : exists r : option string,
             Ok None = Ok r /\ forall x, r = Some x -> In x cands).
  { exists None. split; [reflexivity | discriminate]. }
  destruct val as [|b|n|f|s|l|d]; simpl; try exact Hnone.
  - destruct b; [exact Hfirst | exact Hnone].
  - destruct (negb (n =? 0)%Z); [exact Hfirst | exact Hnone].
  - destruct (float_nonzero f); [exact Hfirst | exact Hnone].
  - destruct (negb (nonempty (strip s))); [exact Hnone|].
    destruct (find _ cands) as [c'|] eqn:E.
    + exists (Some c'). split; [reflexivity|]. intros x [= <-].
      now apply find_some in E.
    + match goal with
      | |- context [if ?b then _ else _] => destruct b
      end; exact Hfirst.
Qed.

Lemma select_on_ok val cands :
  exists r, select_on val cands = Ok r
            /\ forall x, r = Some x -> In x cands.
Proof.
  destruct cands as [|c l].
  - exists None. split; [reflexivity | discriminate].
  - apply (normalize_on_value_ok val (c :: l)). discriminate.
Qed.

Lemma truthy_selects val cands :
  cands <> [] -> truthy val = true ->
  exists x, select_on val cands = Ok (Some x).
Proof.
  intros Hne Ht. destruct cands as [|c l]; [congruence|].
  unfold select_on.
  destruct val as [|b|n|f|s|u|d]; simpl in *; try discriminate.
  - rewrite Ht. now exists c.
  - rewrite Ht. now exists c.
  - rewrite Ht. now exists c.
  - rewrite Ht. simpl.
    destruct (if (lower (with_slash (strip s)) =? lower c)%string
              then Some c
              else find (fun c0 => (lower (with_slash (strip s)) =? lower c0)%string) l)
      as [c'|].
    + now exists c'.
    + match goal with
      | |- context [if ?b then _ else _] => destruct b
      end; now exists c.
Qed.

Lemma set_checkbox_or_radio_ok fld widgets val :
  exists st, set_checkbox_or_radio fld widgets val = Ok st.
Proof.
  unfold set_checkbox_or_radio.
  destruct (is_push_button (get_field_flags fld)); [eauto|].
  destruct (collect_names widgets) as [all off].
  destruct (select_on_ok val all) as [r [-> _]]. simpl.
  destruct (is_radio (get_field_flags fld));
    destruct (truthy_name r); eauto.
Qed.

Lemma appearance_set_AS w v :
  get_appearance_names (set_AS w v) = get_appearance_names w.
Proof. reflexivity. Qed.

Lemma appearance_radio_state sel w :
  get_appearance_names (radio_state sel w) = get_appearance_names w.
Proof.
  unfold radio_state. destruct (get_appearance_names w) as [on off] eqn:E.
  destruct (mem sel on); rewrite appearance_set_AS; exact E.
Qed.

Lemma appearance_checkbox_state w :
  get_appearance_names (checkbox_state w) = get_appearance_names w.
Proof.
  unfold checkbox_state. destruct (get_appearance_names w) as [on off] eqn:E.
  rewrite appearance_set_AS. exact E.
Qed.

Lemma set_AS_twice w v : set_AS (set_AS w v) v = set_AS w v.
Proof. reflexivity. Qed.

Lemma radio_state_twice sel w :
  radio_state sel (radio_state sel w) = radio_state sel w.
Proof.
  unfold radio_state at 1. rewrite appearance_radio_state.
  unfold radio_state.
  destruct (get_appearance_names w) as [on off].
  destruct (mem sel on); reflexivity.
Qed.

Lemma checkbox_state_twice w :
  checkbox_state (checkbox_state w) = checkbox_state w.
Proof.
  unfold checkbox_state at 1. rewrite appearance_checkbox_state.
  unfold checkbox_state.
  destruct (get_appearance_names w) as [on off]. reflexivity.
Qed.

Lemma map_twice (g : pdfobj -> pdfobj) ws :
  (forall w, g (g w) = g w) -> map g (map g ws) = map g ws.
Proof.
  intro Hg. rewrite map_map. apply map_ext. exact Hg.
Qed.

(** Applying a value again to the state the first application left
    changes nothing, for every button and every value. *)
Lemma apply_twice fld widgets val fld' widgets' :
  set_checkbox_or_radio fld widgets val = Ok (fld', widgets') ->
  set_checkbox_or_radio fld' widgets' val = Ok (fld', widgets').
Proof.
  unfold set_checkbox_or_radio at 1.
  destruct (is_push_button (get_field_flags fld)) eqn:Hpush.
  - intros [= <- <-]. unfold set_checkbox_or_radio. now rewrite Hpush.
  - destruct (collect_names widgets) as [all off] eqn:Hc.
    destruct (select_on_ok val all) as [r [Hr _]]. rewrite Hr. simpl.
    assert (Hflags : forall v, get_field_flags (set_V fld v) = get_field_flags fld)
      by reflexivity.
    destruct (is_radio (get_field_flags fld)) eqn:Hradio;
      destruct (truthy_name r) as [sel|] eqn:Hsel;
      intros [= <- <-]; unfold set_checkbox_or_radio;
      rewrite Hflags, Hpush, Hradio.
    + rewrite (collect_names_map _ _ (appearance_radio_state sel)), Hc, Hr.
      simpl. rewrite Hsel.
      now rewrite (map_twice _ _ (radio_state_twice sel)).
    + rewrite (collect_names_map _ _ (fun w => appearance_set_AS w _)), Hc, Hr.
      simpl. rewrite Hsel.
      now rewrite (map_twice _ _ (fun w => set_AS_twice w _)).
    + rewrite (collect_names_map _ _ appearance_checkbox_state), Hc, Hr.
      simpl. rewrite Hsel.
      now rewrite (map_twice _ _ checkbox_state_twice).
    + rewrite (collect_names_map _ _ (fun w => appearance_set_AS w _)), Hc, Hr.
      simpl. rewrite Hsel.
      now rewrite (map_twice _ _ (fun w => set_AS_twice w _)).
Qed.

End Buttons.

(** C10. The on-names of a widget are never empty: with an appearance
    dictionary that has the key [Off] only, they are [["/Yes"]].  So the
    candidates collected from widgets, when there is a widget, are not
    empty; on candidates that are not empty the normalization returns, its
    access to the first candidate never fails; and the applier, which
    normalizes only when it has candidates, returns for every input. *)
Theorem on_names_never_empty :
  (forall widget, fst (get_appearance_names widget) <> [])
  /\ get_appearance_names (widget_with (Some (mkAP (Some ["Off"]))))
     = (["/Yes"], "/Off")
  /\ (forall widgets, widgets <> [] -> fst (collect_names widgets) <> [])
  /\ (forall val candidates,
        candidates <> [] ->
        exists selected, normalize_on_value val candidates = Ok selected)
  /\ (forall fld widgets val,
        exists st, set_checkbox_or_radio fld widgets val = Ok st).
Proof.
  split; [exact on_names_nonempty|]. split; [reflexivity|].
  split; [exact collect_names_nonempty|]. split.
  - intros val cands Hne.
    destruct (normalize_on_value_ok val cands Hne) as [r [Hr _]]. eauto.
  - exact set_checkbox_or_radio_ok.
Qed.

Lemma on_names_never_empty_witness :
  fst (collect_names [widget_with (Some (mkAP (Some ["Off"])))]) <> []
  /\ exists selected,
       normalize_on_value (VStr "on")
         (fst (collect_names [widget_with (Some (mkAP (Some ["Off"])))]))
       = Ok selected.
Proof.
  destruct on_names_never_empty as [_ [_ [Hc [Hn _]]]]. split.
  - apply Hc. discriminate.
  - apply Hn. vm_compute. discriminate.
Defined.

(** C7. On a checkbox (a button that is neither push button nor radio)
    and a truthy value, applying the value to the state the first
    application left gives that state again: the same stored value and the
    same displayed state on every widget. *)
Theorem checkbox_apply_idempotent :
  forall (fld : pdfobj) (widgets : list pdfobj) (val : value),
    is_push_button (get_field_flags fld) = false ->
    is_radio (get_field_flags fld) = false ->
    truthy val = true ->
    exists fld' widgets',
      set_checkbox_or_radio fld widgets val = Ok (fld', widgets')
      /\ set_checkbox_or_radio fld' widgets' val = Ok (fld', widgets')
      /\ map AS widgets' = map AS (map checkbox_state widgets)
      /\ (widgets <> [] ->
          exists X, select_on val (fst (collect_names widgets)) = Ok (Some X)
                    /\ V fld' = Some (PdfName X)).
Proof.
  intros fld widgets val Hpush Hradio Htruthy.
  destruct (set_checkbox_or_radio_ok fld widgets val) as [[fld' widgets'] Hst].
  exists fld', widgets'. split; [exact Hst|].
  split; [now apply apply_twice with (1 := Hst)|].
  unfold set_checkbox_or_radio in Hst. rewrite Hpush, Hradio in Hst.
  destruct (collect_names widgets) as [all off] eqn:Hc. simpl.
  destruct widgets as [|w ws].
  - vm_compute in Hc. injection Hc as <- <-. simpl in Hst.
    injection Hst as <- <-. split; [reflexivity | congruence].
  - assert (Hall : all <> []).
    { change all with (fst (all, off)). rewrite <- Hc.
      apply collect_names_nonempty. discriminate. }
    destruct (truthy_selects val all Hall Htruthy) as [X HX].
    destruct (select_on_ok val all) as [r [Hr Hin]].
    rewrite HX in Hr. injection Hr as <-.
    rewrite HX in Hst. simpl in Hst.
    assert (HXne : nonempty X = true).
    { specialize (Hin X eq_refl).
      change all with (fst (all, off)) in Hin. rewrite <- Hc in Hin.
      apply collect_names_In in Hin. destruct Hin as [w' [_ Hw']].
      apply on_names_slash in Hw'. destruct Hw' as [b ->]. reflexivity. }
    rewrite HXne in Hst. injection Hst as <- <-.
    split; [reflexivity|]. intros _. exists X. split; [exact HX | reflexivity].
Qed.

Lemma checkbox_apply_idempotent_witness :
  exists fld' widgets',
    set_checkbox_or_radio (button 0)
      [widget_with (Some (mkAP (Some ["Off"; "Yes"])))] (VBool true)
    = Ok (fld', widgets')
    /\ set_checkbox_or_radio fld' widgets' (VBool true) = Ok (fld', widgets')
    /\ map AS widgets' =
       map AS (map checkbox_state [widget_with (Some (mkAP (Some ["Off"; "Yes"])))])
    /\ ([widget_with (Some (mkAP (Some ["Off"; "Yes"])))] <> [] ->
        exists X,
          select_on (VBool true)
            (fst (collect_names [widget_with (Some (mkAP (Some ["Off"; "Yes"])))]))
          = Ok (Some X)
          /\ V fld' = Some (PdfName X)).
Proof.
  apply (checkbox_apply_idempotent (button 0)
           [widget_with (Some (mkAP (Some ["Off"; "Yes"])))] (VBool true));
    reflexivity.
Defined.

(** ** Radio groups *)

Section Radio.

Lemma on_names_not_off widget n :
  In n (fst (get_appearance_names widget)) -> n <> "/Off".
Proof.
  unfold get_appearance_names, default_appearance.
  destruct (AP widget) as [ap|].
  2:{ simpl. intros [<-|[]]. discriminate. }
  destruct (N ap) as [keys|].
  2:{ simpl. intros [<-|[]]. discriminate. }
  destruct keys as [|k r].
  { simpl. intros [<-|[]]. discriminate. }
  set (names := map name_str (k :: r)).
  assert (Hoff : (if mem "/Off" names then "/Off" else "/Off") = "/Off")
    by (destruct (mem "/Off" names); reflexivity).
  rewrite Hoff.
  destruct (filter (fun n0 => negb (String.eqb n0 "/Off")) names) as [|x l] eqn:E.
  - simpl. intros [<-|[]]. discriminate.
  - simpl fst. rewrite <- E. intro H.
    apply filter_In in H. destruct H as [_ H].
    apply negb_true_iff, String.eqb_neq in H. exact H.
Qed.

Lemma shows_radio_state X w :
  X <> "/Off" -> shows X (radio_state X w) = has_candidate X w.
Proof.
  intro HX. unfold radio_state, has_candidate.
  pose proof (off_name_is_off w) as Hoff.
  destruct (get_appearance_names w) as [on off]. cbn [fst snd] in *.
  subst off.
  destruct (mem X on); unfold shows, set_AS; cbn [AS].
  - apply String.eqb_refl.
  - apply String.eqb_neq. congruence.
Qed.

Lemma filter_map_length A B (g : A -> B) (p : B -> bool) (q : A -> bool) l :
  (forall x, p (g x) = q x) ->
  length (filter p (map g l)) = length (filter q l).
Proof.
  intro H. induction l as [|x r IH]; simpl; [reflexivity|].
  rewrite H. destruct (q x); simpl; now rewrite IH.
Qed.

End Radio.

(** C4, as amended.  On a radio button (bit 15 set, bit 16 clear), when
    the value selects the on-name [X]: the stored value is [X], every
    widget whose own candidate set contains [X] shows [X], every other
    widget shows its own off-name, at least one widget shows [X], and the
    widgets that show [X] are exactly those whose candidate set contains
    it, as many as there are.  When nothing is selected, the stored value
    and the state of every widget are the off-name. *)
Theorem radio_apply_state :
  forall (fld : pdfobj) (widgets : list pdfobj) (val : value),
    is_push_button (get_field_flags fld) = false ->
    is_radio (get_field_flags fld) = true ->
    exists fld' widgets',
      set_checkbox_or_radio fld widgets val = Ok (fld', widgets')
      /\ length widgets' = length widgets
      /\ (forall X,
            select_on val (fst (collect_names widgets)) = Ok (Some X) ->
            V fld' = Some (PdfName X)
            /\ (forall i w w',
                  nth_error widgets i = Some w ->
                  nth_error widgets' i = Some w' ->
                  (has_candidate X w = true -> AS w' = Some (PdfName X))
                  /\ (has_candidate X w = false ->
                      AS w' = Some (PdfName (own_off_name w))))
            /\ (exists w, In w widgets /\ has_candidate X w = true)
            /\ length (filter (shows X) widgets')
               = length (filter (has_candidate X) widgets))
      /\ (select_on val (fst (collect_names widgets)) = Ok None ->
          V fld' = Some (PdfName "/Off")
          /\ forall i w w',
               nth_error widgets i = Some w ->
               nth_error widgets' i = Some w' ->
               AS w' = Some (PdfName "/Off") /\ own_off_name w = "/Off").
Proof.
  intros fld widgets val Hpush Hradio.
  unfold set_checkbox_or_radio. rewrite Hpush, Hradio.
  pose proof (collect_names_off widgets) as Hoff.
  pose proof (collect_names_In widgets) as HIn.
  destruct (collect_names widgets) as [all off]. simpl in Hoff, HIn. subst off.
  simpl fst.
  destruct (select_on_ok val all) as [r [Hr Hsel]]. rewrite Hr. simpl.
  destruct r as [X|]; simpl.
  - assert (HX : exists w, In w widgets /\ In X (fst (get_appearance_names w))).
    { apply HIn, Hsel. reflexivity. }
    destruct HX as [w0 [Hw0 HXw0]].
    assert (HXoff : X <> "/Off") by exact (on_names_not_off w0 X HXw0).
    assert (HXne : nonempty X = true).
    { destruct (on_names_slash w0 X HXw0) as [b ->]. reflexivity. }
    rewrite HXne.
    eexists. eexists. split; [reflexivity|].
    split; [apply length_map|]. split.
    + intros X' [= <-]. split; [reflexivity|]. split; [|split].
      * intros i w w' Hw Hw'.
        rewrite nth_error_map, Hw in Hw'. injection Hw' as <-.
        unfold radio_state, has_candidate, own_off_name.
        destruct (get_appearance_names w) as [on o]. simpl.
        destruct (mem X on); split; intro; try discriminate; reflexivity.
      * exists w0. split; [exact Hw0|]. now apply mem_In.
      * apply filter_map_length. intro w. now apply shows_radio_state.
    + discriminate.
  - eexists. eexists. split; [reflexivity|].
    split; [apply length_map|]. split; [discriminate|].
    intros _. split; [reflexivity|].
    intros i w w' Hw Hw'.
    rewrite nth_error_map, Hw in Hw'. injection Hw' as <-.
    split; [reflexivity | apply off_name_is_off].
Qed.

Lemma radio_apply_state_witness :
  exists fld' widgets',
    set_checkbox_or_radio (button 32768)
      [widget_with (Some (mkAP (Some ["Off"; "A"])));
       widget_with (Some (mkAP (Some ["B"; "Off"])))] (VStr "b")
    = Ok (fld', widgets')
    /\ V fld' = Some (PdfName "/B")
    /\ map AS widgets' = [Some (PdfName "/Off"); Some (PdfName "/B")].
Proof.
  destruct (radio_apply_state (button 32768)
              [widget_with (Some (mkAP (Some ["Off"; "A"])));
               widget_with (Some (mkAP (Some ["B"; "Off"])))] (VStr "b")
              eq_refl eq_refl) as [fld' [widgets' [Hst _]]].
  exists fld', widgets'. split; [exact Hst|].
  vm_compute in Hst. injection Hst as <- <-. split; reflexivity.
Defined.

(** C4 as it is stated fails: in a radio group whose two widgets both have
    the on-name [Yes], the value [True] selects ["/Yes"] and both widgets
    show it, not one. *)
Lemma radio_two_widgets_show_selected :
  exists fld' widgets',
    set_checkbox_or_radio (button 32768)
      [widget_with (Some (mkAP (Some ["Off"; "Yes"])));
       widget_with (Some (mkAP (Some ["Off"; "Yes"])))] (VBool true)
    = Ok (fld', widgets')
    /\ select_on (VBool true)
         (fst (collect_names
                 [widget_with (Some (mkAP (Some ["Off"; "Yes"])));
                  widget_with (Some (mkAP (Some ["Off"; "Yes"])))]))
       = Ok (Some "/Yes")
    /\ V fld' = Some (PdfName "/Yes")
    /\ map AS widgets' = [Some (PdfName "/Yes"); Some (PdfName "/Yes")]
    /\ length (filter (shows "/Yes") widgets') = 2
    /\ length (filter (shows "/Yes") widgets') <> 1.
Proof.
  eexists. eexists. split; [vm_compute; reflexivity|].
  split; [reflexivity|]. split; [reflexivity|]. split; [reflexivity|].
  split; [reflexivity | discriminate].
Qed.

(** ** The fillable-field listing *)

Section Listing.

(** A single bit tested with [&] as the source does. *)
Lemma land_bit ff n :
  (0 <= n)%Z ->
  negb (Z.eqb (Z.land ff (Z.shiftl 1 n)) 0) = Z.testbit ff n.
Proof.
  intro Hn.
  destruct (Z.testbit ff n) eqn:E.
  - apply negb_true_iff, Z.eqb_neq. intro H.
    assert (Hb : Z.testbit (Z.land ff (Z.shiftl 1 n)) n = true).
    { rewrite Z.land_spec, E, Z.shiftl_spec, Z.sub_diag by exact Hn.
      reflexivity. }
    rewrite H, Z.bits_0 in Hb. discriminate.
  - apply negb_false_iff, Z.eqb_eq. apply Z.bits_inj'. intros m Hm.
    rewrite Z.land_spec, Z.bits_0, Z.shiftl_spec by exact Hm.
    destruct (Z.eq_dec m n) as [->|Hne].
    + now rewrite E.
    + replace (Z.testbit 1 (m - n)) with false; [apply andb_false_r|].
      symmetry. destruct (Z.lt_ge_cases (m - n) 0) as [Hlt|Hge].
      * now apply Z.testbit_neg_r.
      * change 1%Z with (2 ^ 0)%Z. apply Z.pow2_bits_false. lia.
Qed.

Lemma is_read_only_bit ff : is_read_only ff = Z.testbit ff 0.
Proof. apply land_bit. lia. Qed.

Lemma is_push_button_bit ff : is_push_button ff = Z.testbit ff 16.
Proof. apply land_bit. lia. Qed.

Lemma is_radio_bit ff : is_radio ff = Z.testbit ff 15.
Proof. apply land_bit. lia. Qed.

Lemma ft_is t (f : entry) :
  String.eqb (to_str_name (FT (field f))) (name_str t) = has_field_type t f.
Proof.
  unfold has_field_type, to_str_name, name_str.
  destruct (FT (field f)) as [n|]; reflexivity.
Qed.

Lemma fillable_lines_filter fields :
  fillable_lines fields = map name (filter fillable fields).
Proof.
  induction fields as [|f r IH]; [reflexivity|].
  cbn [fillable_lines filter].
  change "/Btn" with (name_str "Btn"). change "/Sig" with (name_str "Sig").
  rewrite !ft_is, is_read_only_bit, is_push_button_bit, IH.
  assert (Hf : fillable f =
               nonempty (name f)
               && negb (Z.testbit (get_field_flags (field f)) 0)
               && negb (has_field_type "Btn" f
                        && Z.testbit (get_field_flags (field f)) 16)
               && negb (has_field_type "Sig" f)) by reflexivity.
  rewrite Hf. clear Hf.
  set (a := nonempty (name f)).
  set (b := Z.testbit (get_field_flags (field f)) 0).
  set (c := has_field_type "Btn" f && Z.testbit (get_field_flags (field f)) 16).
  set (d := has_field_type "Sig" f).
  destruct a, b, c, d; reflexivity.
Qed.

Lemma append_assoc (a b c : string) :
  ((a ++ b) ++ c = a ++ (b ++ c))%string.
Proof.
  induction a as [|x a IH]; simpl; [reflexivity | now rewrite IH].
Qed.

Lemma join_lines l :
  match l with
  | [] => ""
  | _ => join newline l ++ newline
  end%string = String.concat "" (map (fun n => (n ++ newline)%string) l).
Proof.
  induction l as [|n r IH]; [reflexivity|].
  destruct r as [|m r'].
  - reflexivity.
  - change (join newline (n :: m :: r'))
      with (n ++ newline ++ join newline (m :: r'))%string.
    cbn [map String.concat]. cbn [map String.concat] in IH.
    rewrite <- IH. cbn [append].
    now rewrite !append_assoc.
Qed.

End Listing.

(** C8. The listing is the full names of the kept entries, in the order of
    the table, each followed by a line feed.  An entry is kept exactly when
    its name is not empty, bit 0 of its flags (read-only) is clear, it is
    not a button with bit 16 (push button) set, and it is not a signature
    field. *)
Theorem fillable_listing :
  forall fields : list entry,
    write_fillable_list fields =
      String.concat "" (map (fun n => (n ++ newline)%string) (fillable_lines fields))
    /\ fillable_lines fields = map name (filter fillable fields)
    /\ (forall f, In f fields ->
          (fillable f = true <->
           name f <> ""
           /\ Z.testbit (get_field_flags (field f)) 0 = false
           /\ ~ (FT (field f) = Some "Btn"
                 /\ Z.testbit (get_field_flags (field f)) 16 = true)
           /\ FT (field f) <> Some "Sig")).
Proof.
  intro fields. split; [|split].
  - unfold write_fillable_list. apply join_lines.
  - apply fillable_lines_filter.
  - intros f _. unfold fillable, has_field_type.
    rewrite !andb_true_iff, !negb_true_iff.
    assert (Hne : nonempty (name f) = true <-> name f <> "")
      by (destruct (name f); simpl; split; congruence).
    rewrite Hne.
    destruct (FT (field f)) as [t|].
    + destruct (String.eqb_spec t "Btn") as [Hb|Hb];
        destruct (String.eqb_spec t "Sig") as [Hs|Hs];
        cbn [andb];
        destruct (Z.testbit (get_field_flags (field f)) 16);
        destruct (Z.testbit (get_field_flags (field f)) 0);
        subst; firstorder congruence.
    + cbn [andb]. destruct (Z.testbit (get_field_flags (field f)) 0);
        intuition congruence.
Qed.

Lemma fillable_listing_witness :
  write_fillable_list
    (flatten_all_fields
       [group "name" [text_field "first"];
        mkObj (Some "agree") (Some "Btn") None None None None None [];
        mkObj (Some "submit") (Some "Btn") (Some (FfInt 65536)) None None None None []])
  = ("name.first" ++ newline ++ "agree" ++ newline)%string
  /\ fillable (mkEntry "submit"
                 (mkObj (Some "submit") (Some "Btn") (Some (FfInt 65536)) None None
                    None None []) []) = false.
Proof.
  split.
  - rewrite (proj1 (fillable_listing _)). reflexivity.
  - destruct (fillable (mkEntry "submit"
                 (mkObj (Some "submit") (Some "Btn") (Some (FfInt 65536)) None None
                    None None []) [])) eqn:E; [|reflexivity].
    apply (proj2 (proj2 (fillable_listing
             [mkEntry "submit"
                (mkObj (Some "submit") (Some "Btn") (Some (FfInt 65536)) None None
                   None None []) []])) _ (or_introl eq_refl)) in E.
    destruct E as [_ [_ [E _]]]. exfalso. apply E. split; reflexivity.
Defined.

(** ** Reading a document *)

(** C9. Reading the XFA packets raises a different error for a missing
    file, for a document without [/AcroForm] and for one with [/AcroForm]
    but no [/XFA], and none of them is the error of a file that cannot be
    read; the error raised determines which of these situations holds.
    The result of form-type detection determines the situation among
    missing file, read failure, no root, no form, AcroForm only and XFA. *)
Theorem absence_is_distinct :
  forall (pdf_path : string) (f g : file),
    (classify f = NoForm ->
     read_xfa_packets pdf_path f =
       Raise (ValueError "PDF nie zawiera /AcroForm – brak XFA."))
    /\ (classify f = AcroFormOnly ->
        read_xfa_packets pdf_path f =
          Raise (ValueError "PDF nie zawiera /XFA – brak pakietów XFA."))
    /\ (classify f = NoSuchFile ->
        read_xfa_packets pdf_path f =
          Raise (FileNotFoundError ("Nie znaleziono pliku: " ++ pdf_path)))
    /\ (classify f = ReadFailure -> read_xfa_packets pdf_path f = Raise PdfError)
    /\ (forall e,
          read_xfa_packets pdf_path f = Raise e ->
          read_xfa_packets pdf_path g = Raise e ->
          classify f = classify g)
    /\ (detect_form_type f = detect_form_type g -> classify f = classify g).
Proof.
  intros pdf_path f g.
  repeat split.
  - destruct f as [| |[root|]]; simpl; try discriminate.
    destruct (AcroForm root) as [acro|]; [|reflexivity].
    destruct (XFA acro); discriminate.
  - destruct f as [| |[root|]]; simpl; try discriminate.
    destruct (AcroForm root) as [acro|]; [|discriminate].
    destruct (XFA acro); [discriminate | reflexivity].
  - destruct f as [| |[root|]]; simpl; try discriminate; [reflexivity|].
    destruct (AcroForm root) as [acro|]; [|discriminate].
    destruct (XFA acro); discriminate.
  - destruct f as [| |[root|]]; simpl; try discriminate; [reflexivity|].
    destruct (AcroForm root) as [acro|]; [|discriminate].
    destruct (XFA acro); discriminate.
  - intros e Hf Hg.
    destruct f as [| |[rf|]]; destruct g as [| |[rg|]]; simpl in *;
      try (destruct (AcroForm rf) as [af|]; [destruct (XFA af) as [xf|]|]);
      try (destruct (AcroForm rg) as [ag|]; [destruct (XFA ag) as [xg|]|]);
      try reflexivity;
      repeat match goal with
        | H : match ?p with [] => _ | _ :: _ => _ end = _ |- _ => destruct p
        end;
      congruence.
  - destruct f as [| |[rf|]]; destruct g as [| |[rg|]]; simpl;
      try (destruct (AcroForm rf) as [af|]; [destruct (XFA af) as [xf|]|]);
      try (destruct (AcroForm rg) as [ag|]; [destruct (XFA ag) as [xg|]|]);
      intro H; try reflexivity; discriminate H.
Qed.

Lemma absence_is_distinct_witness :
  read_xfa_packets "xfa.pdf" (Document (Some (mkCatalog None)))
  = Raise (ValueError "PDF nie zawiera /AcroForm – brak XFA.")
  /\ read_xfa_packets "xfa.pdf" (Document (Some (mkCatalog (Some (mkAcro None [])))))
     = Raise (ValueError "PDF nie zawiera /XFA – brak pakietów XFA.")
  /\ read_xfa_packets "xfa.pdf" Missing
     = Raise (FileNotFoundError "Nie znaleziono pliku: xfa.pdf")
  /\ classify (Document None) = classify (Document None).
Proof.
  split; [|split; [|split]].
  - apply (proj1 (absence_is_distinct "xfa.pdf" _ Missing)). reflexivity.
  - apply (proj1 (proj2 (absence_is_distinct "xfa.pdf" _ Missing))). reflexivity.
  - apply (proj1 (proj2 (proj2 (absence_is_distinct "xfa.pdf" Missing Missing)))).
    reflexivity.
  - apply (proj2 (proj2 (proj2 (proj2 (proj2
             (absence_is_distinct "xfa.pdf" (Document None) (Document None))))))).
    reflexivity.
Defined.

(** ** Name resolution *)

Section Dictionaries.
Context {A : Type}.

Lemma dict_get_set (k k' : string) (v : A) (d : dict A) :
  dict_get k (dict_set k' v d) =
  if String.eqb k k' then Some v else dict_get k d.
Proof.
  induction d as [|[k0 v0] r IH]; simpl; [reflexivity|].
  destruct (String.eqb_spec k' k0) as [->|Hne]; simpl.
  - destruct (String.eqb k k0); reflexivity.
  - rewrite IH. destruct (String.eqb_spec k k') as [->|Hk]; [|reflexivity].
    apply String.eqb_neq in Hne. now rewrite Hne.
Qed.

Lemma dict_keys_set (k : string) (v : A) (d : dict A) :
  dict_keys (dict_set k v d) = add_new (dict_keys d) k.
Proof.
  unfold add_new, mem.
  induction d as [|[k0 v0] r IH]; simpl; [reflexivity|].
  destruct (String.eqb k k0); simpl; [reflexivity|].
  rewrite IH. unfold dict_keys.
  destruct (existsb (String.eqb k) (map fst r)); reflexivity.
Qed.

(** The first item whose key passes a test is the first key that passes
    it, with the value the dictionary holds for it. *)
Lemma find_by_key (p : string -> bool) (d : dict A) :
  find (fun kv => p (fst kv)) d =
  match find p (dict_keys d) with
  | Some k => option_map (pair k) (dict_get k d)
  | None => None
  end.
Proof.
  induction d as [|[k0 v0] r IH]; simpl; [reflexivity|].
  destruct (p k0) eqn:E.
  - now rewrite String.eqb_refl.
  - rewrite IH. unfold dict_keys.
    destruct (find p (map fst r)) as [k|] eqn:F; [|reflexivity].
    apply find_some in F. destruct F as [_ Hk].
    destruct (String.eqb_spec k k0) as [->|Hne]; [congruence | reflexivity].
Qed.

Lemma dict_get_In (k : string) (v : A) (d : dict A) :
  NoDup (dict_keys d) -> In (k, v) d -> dict_get k d = Some v.
Proof.
  induction d as [|[k0 v0] r IH]; simpl; [tauto|].
  intros Hnd [[= -> ->]|Hin].
  - now rewrite String.eqb_refl.
  - inversion Hnd as [|? ? Hnotin Hnd']; subst.
    destruct (String.eqb_spec k k0) as [->|Hne].
    + exfalso. apply Hnotin. unfold dict_keys.
      apply in_map_iff. now exists (k0, v).
    + now apply IH.
Qed.

End Dictionaries.

Section ListFacts.
Context {A : Type}.

Lemma find_ext_in (p q : A -> bool) (l : list A) :
  (forall x, In x l -> p x = q x) -> find p l = find q l.
Proof.
  induction l as [|x r IH]; simpl; [reflexivity|].
  intro H. rewrite (H x) by auto.
  destruct (q x); [reflexivity|]. apply IH. auto.
Qed.

Lemma find_map_filter {B : Type} (g : A -> B) (q : A -> bool) (p : B -> bool)
    (l : list A) :
  find p (map g (filter q l)) =
  option_map g (find (fun x => q x && p (g x)) l).
Proof.
  induction l as [|x r IH]; simpl; [reflexivity|].
  destruct (q x); simpl; [|exact IH].
  destruct (p (g x)); [reflexivity | exact IH].
Qed.

Lemma last_error_snoc (l : list A) (x : A) : last_error (l ++ [x]) = Some x.
Proof. unfold last_error. now rewrite rev_app_distr. Qed.

Lemma last_error_In (l : list A) (x : A) :
  In x l -> exists y, last_error l = Some y.
Proof.
  unfold last_error. intro H. apply in_rev in H.
  destruct (rev l) as [|y r]; [destruct H | now exists y].
Qed.

End ListFacts.

Section AddNew.

Lemma find_add_new (p : string -> bool) acc n :
  find p (add_new acc n) =
  match find p acc with
  | Some x => Some x
  | None => if p n then Some n else None
  end.
Proof.
  unfold add_new. destruct (mem n acc) eqn:E.
  - destruct (find p acc) as [x|] eqn:F; [reflexivity|].
    apply mem_In in E. now rewrite (find_none _ _ F n E).
  - induction acc as [|a r IH]; simpl.
    + destruct (p n); reflexivity.
    + destruct (p a); [reflexivity|]. apply IH.
      unfold mem in *. simpl in E. now apply orb_false_iff in E.
Qed.

Lemma find_fold_add_new (p : string -> bool) l : forall acc,
    find p (fold_left add_new l acc) =
    match find p acc with
    | Some x => Some x
    | None => find p l
    end.
Proof.
  induction l as [|n r IH]; intro acc; simpl.
  - destruct (find p acc); reflexivity.
  - rewrite IH, find_add_new.
    destruct (find p acc); [reflexivity|].
    destruct (p n); reflexivity.
Qed.

Lemma NoDup_add_new acc n : NoDup acc -> NoDup (add_new acc n).
Proof.
  intro H. unfold add_new. destruct (mem n acc) eqn:E; [exact H|].
  assert (Hn : ~ In n acc).
  { intro Hin. apply mem_In in Hin. congruence. }
  clear E. induction H as [|a r Ha Hr IH]; simpl.
  - constructor; [tauto | constructor].
  - constructor.
    + rewrite in_app_iff. simpl in *. intuition congruence.
    + apply IH. simpl in Hn. tauto.
Qed.

Lemma NoDup_fold_add_new l : forall acc,
    NoDup acc -> NoDup (fold_left add_new l acc).
Proof.
  induction l as [|n r IH]; intros acc H; simpl; [exact H|].
  apply IH, NoDup_add_new, H.
Qed.

End AddNew.

Section Resolution.

Lemma by_name_snoc l f :
  by_name_of (l ++ [f]) =
  if named f then dict_set (name f) f (by_name_of l) else by_name_of l.
Proof. unfold by_name_of. now rewrite fold_left_app. Qed.

Lemma short_snoc l f :
  short_names_map_of (l ++ [f]) =
  if based f then dict_append (name_of (field f)) f (short_names_map_of l)
  else short_names_map_of l.
Proof. unfold short_names_map_of. now rewrite fold_left_app. Qed.

Lemma by_name_get fields k :
  dict_get k (by_name_of fields) = last_error (filter (full_is k) fields).
Proof.
  induction fields as [|f l IH] using rev_ind; [reflexivity|].
  rewrite by_name_snoc, filter_app. simpl. unfold full_is at 2, named.
  destruct (nonempty (name f)) eqn:E; simpl.
  - rewrite dict_get_set, (String.eqb_sym (name f) k).
    destruct (String.eqb k (name f)).
    + now rewrite last_error_snoc.
    + now rewrite app_nil_r.
  - now rewrite app_nil_r.
Qed.

Lemma by_name_keys fields :
  dict_keys (by_name_of fields) =
  fold_left add_new (map name (filter named fields)) [].
Proof.
  induction fields as [|f l IH] using rev_ind; [reflexivity|].
  rewrite by_name_snoc, filter_app, map_app, fold_left_app. simpl.
  destruct (named f); simpl.
  - now rewrite dict_keys_set, IH.
  - exact IH.
Qed.

Lemma short_get fields k :
  dict_get k (short_names_map_of fields) =
  match filter (local_is k) fields with
  | [] => None
  | l => Some l
  end.
Proof.
  induction fields as [|f l IH] using rev_ind; [reflexivity|].
  rewrite short_snoc, filter_app. simpl. unfold local_is at 2, based.
  destruct (nonempty (name_of (field f))) eqn:E; simpl.
  - unfold dict_append.
    rewrite (String.eqb_sym (name_of (field f)) k).
    destruct (String.eqb k (name_of (field f))) eqn:Hk.
    + apply String.eqb_eq in Hk. subst k. rewrite IH.
      destruct (filter (local_is (name_of (field f))) l) as [|c r] eqn:F;
        rewrite dict_get_set, String.eqb_refl; reflexivity.
    + destruct (dict_get (name_of (field f)) (short_names_map_of l));
        rewrite dict_get_set, Hk, IH, app_nil_r; reflexivity.
  - now rewrite app_nil_r.
Qed.

Lemma short_keys fields :
  dict_keys (short_names_map_of fields) =
  fold_left add_new
    (map (fun f => name_of (field f)) (filter based fields)) [].
Proof.
  induction fields as [|f l IH] using rev_ind; [reflexivity|].
  rewrite short_snoc, filter_app, map_app, fold_left_app. simpl.
  destruct (based f); simpl; [|exact IH].
  unfold dict_append.
  destruct (dict_get (name_of (field f)) (short_names_map_of l));
    now rewrite dict_keys_set, IH.
Qed.

Lemma short_items fields k flist :
  In (k, flist) (short_names_map_of fields) ->
  flist = filter (local_is k) fields.
Proof.
  intro Hin.
  assert (Hnd : NoDup (dict_keys (short_names_map_of fields))).
  { rewrite short_keys. apply NoDup_fold_add_new. constructor. }
  pose proof (dict_get_In k flist _ Hnd Hin) as Hget.
  rewrite short_get in Hget.
  destruct (filter (local_is k) fields); congruence.
Qed.

(** Step 3 on the table. *)
Lemma match_full_table fields key :
  find (fun nf => String.eqb (lower (fst nf)) (lower key)) (by_name_of fields)
  = match find (full_like key) fields with
    | Some g =>
        option_map (pair (name g))
          (last_error (filter (full_is (name g)) fields))
    | None => None
    end.
Proof.
  rewrite (find_by_key (fun n => String.eqb (lower n) (lower key))).
  rewrite by_name_keys, find_fold_add_new. simpl.
  rewrite find_map_filter.
  change (fun x => named x && String.eqb (lower (name x)) (lower key))
    with (full_like key).
  destruct (find (full_like key) fields) as [g|]; simpl; [|reflexivity].
  now rewrite by_name_get.
Qed.

(** Step 4 on the table. *)
Lemma match_short_table fields key :
  find (fun bf => String.eqb (lower (fst bf)) (lower key)
                  && Nat.eqb (length (snd bf)) 1)
    (short_names_map_of fields)
  = match find (fun f => local_like key f && sole_spelling fields f) fields with
    | Some f => Some (name_of (field f), [f])
    | None => None
    end.
Proof.
  set (p := fun k => String.eqb (lower k) (lower key)
                     && Nat.eqb (length (filter (local_is k) fields)) 1).
  rewrite (find_ext_in _ (fun bf => p (fst bf))).
  2:{ intros [k flist] Hin. simpl. unfold p.
      now rewrite (short_items _ _ _ Hin). }
  rewrite find_by_key, short_keys, find_fold_add_new. simpl.
  rewrite find_map_filter.
  rewrite (find_ext_in _ (fun f => local_like key f && sole_spelling fields f)).
  2:{ intros f _. unfold p, based, local_like, sole_spelling.
      now rewrite andb_assoc. }
  destruct (find _ fields) as [f|] eqn:F; simpl; [|reflexivity].
  apply find_some in F. destruct F as [Hin Hf].
  apply andb_true_iff in Hf. destruct Hf as [Hlike Hsole].
  rewrite short_get.
  unfold sole_spelling in Hsole. apply Nat.eqb_eq in Hsole.
  assert (Hmem : In f (filter (local_is (name_of (field f))) fields)).
  { apply filter_In. split; [exact Hin|]. unfold local_is.
    unfold local_like in Hlike. apply andb_true_iff in Hlike.
    destruct Hlike as [-> _]. apply String.eqb_refl. }
  destruct (filter (local_is (name_of (field f))) fields) as [|c [|c' r]].
  - destruct Hmem.
  - destruct Hmem as [->|[]]. reflexivity.
  - discriminate Hsole.
Qed.

Lemma resolve_on_table fields key :
  resolve fields key = Ok (resolve_table fields key).
Proof.
  unfold resolve, resolve_table.
  rewrite by_name_get.
  destruct (last_error (filter (full_is key) fields)) as [f|]; [reflexivity|].
  rewrite short_get.
  assert (Hc : match
                 match filter (local_is key) fields with
                 | [] => None
                 | e :: l => Some (e :: l)
                 end
               with
               | Some l => l
               | None => []
               end = filter (local_is key) fields)
    by (destruct (filter (local_is key) fields); reflexivity).
  rewrite Hc. clear Hc.
  destruct (filter (local_is key) fields) as [|c [|c' r]]; simpl;
    try reflexivity.
  - rewrite match_full_table.
    destruct (find (full_like key) fields) as [g|] eqn:G.
    + apply find_some in G. destruct G as [Hin Hg].
      assert (Hl : In g (filter (full_is (name g)) fields)).
      { apply filter_In. split; [exact Hin|]. unfold full_is.
        unfold full_like in Hg. apply andb_true_iff in Hg.
        destruct Hg as [-> _]. apply String.eqb_refl. }
      destruct (last_error_In _ _ Hl) as [y ->]. reflexivity.
    + rewrite match_short_table.
      destruct (find (fun f => local_like key f && sole_spelling fields f)
                  fields); reflexivity.
  - rewrite match_full_table.
    destruct (find (full_like key) fields) as [g|] eqn:G.
    + apply find_some in G. destruct G as [Hin Hg].
      assert (Hl : In g (filter (full_is (name g)) fields)).
      { apply filter_In. split; [exact Hin|]. unfold full_is.
        unfold full_like in Hg. apply andb_true_iff in Hg.
        destruct Hg as [-> _]. apply String.eqb_refl. }
      destruct (last_error_In _ _ Hl) as [y ->]. reflexivity.
    + rewrite match_short_table.
      destruct (find (fun f => local_like key f && sole_spelling fields f)
                  fields); reflexivity.
Qed.

End Resolution.



(** ** The template analyzer *)

Section Bindings.

Lemma record_binding_of out el :
  record_binding out el =
  match binding_of el with
  | (nm, ref) :: _ => dict_set nm ref out
  | [] => out
  end.
Proof.
  unfold record_binding, binding_of.
  destruct (get_attr "name" el) as [nm|]; [|reflexivity].
  destruct (nonempty nm); simpl.
  - destruct (find_local "bind" el) as [bnd|]; [|reflexivity].
    destruct (get_attr "ref" bnd) as [ref|]; [|reflexivity].
    destruct (nonempty ref); reflexivity.
  - destruct (find_local "bind" el) as [bnd|]; [|reflexivity].
    destruct (get_attr "ref" bnd) as [ref|]; reflexivity.
Qed.

Lemma binding_of_cases el :
  binding_of el = [] \/ exists nm ref, binding_of el = [(nm, ref)].
Proof.
  unfold binding_of.
  destruct (get_attr "name" el) as [nm|]; [|now left].
  destruct (find_local "bind" el) as [bnd|]; [|now left].
  destruct (get_attr "ref" bnd) as [ref|]; [|now left].
  destruct (nonempty nm && nonempty ref); [right; eauto | now left].
Qed.

Lemma last_error_app A (x y : list A) :
  last_error (x ++ y) =
  match last_error y with
  | Some b => Some b
  | None => last_error x
  end.
Proof.
  unfold last_error. rewrite rev_app_distr.
  destruct (rev y); reflexivity.
Qed.

(** After the loop over [els], a name holds the reference of the last
    element that binds it, or what it held before when none does. *)
Lemma fold_record_binding nm els : forall out,
    dict_get nm (fold_left record_binding els out) =
    match last_error (filter (binds nm) (flat_map binding_of els)) with
    | Some b => Some (snd b)
    | None => dict_get nm out
    end.
Proof.
  induction els as [|el r IH]; intro out; [reflexivity|].
  cbn [fold_left flat_map]. rewrite IH, filter_app, last_error_app.
  destruct (last_error (filter (binds nm) (flat_map binding_of r)));
    [reflexivity|].
  rewrite record_binding_of.
  destruct (binding_of_cases el) as [->|[nm' [ref ->]]]; [reflexivity|].
  cbn [filter]. unfold binds. cbn [fst].
  rewrite dict_get_set, (String.eqb_sym nm' nm).
  destruct (String.eqb nm nm'); reflexivity.
Qed.

End Bindings.

(** C2 on the code: for every template and every name, the bindings map
    holds the reference of the LAST binding of that name, the exclusion
    groups coming after the fields.  With two fields named [Email], bound
    to [$.a] and to [$.b], the map holds [$.b], while the map of SOM paths
    holds the path of the first. *)
Theorem bindings_keep_last_occurrence :
  forall (root : element) (nm : string),
    dict_get nm (get_bindings_from_template (Some root)) =
      option_map snd (last_error (filter (binds nm) (declared_bindings root)))
    /\ get_bindings_from_template
         (Some (template [bound_field "Email" "$.a"; bound_field "Email" "$.b"]))
       = [("Email", "$.b")]
    /\ get_bindings_from_template
         (Some (template [subform "s1" [bound_field "Email" "$.a"];
                          subform "s2" [bound_field "Email" "$.b"]]))
       = [("Email", "$.b")]
    /\ get_som_paths_from_template
         (Some (template [subform "s1" [bound_field "Email" "$.a"];
                          subform "s2" [bound_field "Email" "$.b"]]))
       = [("Email", "s1.Email")].
Proof.
  intros root nm. split; [|repeat split].
  unfold get_bindings_from_template, declared_bindings.
  rewrite fold_record_binding, filter_app, last_error_app.
  destruct (last_error
              (filter (binds nm)
                 (flat_map binding_of (findall_local "exclGroup" root))));
    [reflexivity|].
  rewrite fold_record_binding.
  destruct (last_error
              (filter (binds nm)
                 (flat_map binding_of (findall_local "field" root))));
    reflexivity.
Qed.

(** ** The datasets path resolver *)

Section Segments.

Lemma re_split_cons s : exists p ps, re_split s = p :: ps.
Proof.
  destruct s as [|c r]; simpl; [now eauto|].
  destruct (is_sep c); [now eauto|].
  destruct (re_split r); eauto.
Qed.

Lemma re_split_free s p : In p (re_split s) -> free_of is_sep p = true.
Proof.
  revert p. induction s as [|c r IH]; simpl; intros p Hin.
  - destruct Hin as [<-|[]]. reflexivity.
  - destruct (is_sep c) eqn:E.
    + destruct Hin as [<-|Hin]; [reflexivity | now apply IH].
    + destruct (re_split r) as [|p0 ps].
      * destruct Hin as [<-|[]]. simpl. now rewrite E.
      * destruct Hin as [<-|Hin].
        -- simpl. rewrite E. simpl. apply IH. now left.
        -- apply IH. now right.
Qed.

Lemma re_split_concat s : String.concat "" (re_split s) = remove_seps s.
Proof.
  induction s as [|c r IH]; simpl; [reflexivity|].
  destruct (re_split_cons r) as [p [ps E]]. rewrite E in *.
  destruct (is_sep c); simpl.
  - exact IH.
  - rewrite <- IH. destruct ps; reflexivity.
Qed.

Lemma closes_suffix i t :
  free_of is_close_or_lf i = true -> closes (i ++ String "]" t) = true.
Proof.
  induction i as [|c r IH]; simpl; [reflexivity|].
  unfold is_close_or_lf at 1. intro H.
  apply andb_true_iff in H. destruct H as [Hc Hr].
  apply negb_true_iff, orb_false_iff in Hc. destruct Hc as [-> ->].
  now apply IH.
Qed.

Lemma skip_suffix i t :
  free_of is_close_or_lf i = true ->
  sub_index true (i ++ String "]" t) = sub_index false t.
Proof.
  induction i as [|c r IH]; simpl; [reflexivity|].
  unfold is_close_or_lf at 1. intro H.
  apply andb_true_iff in H. destruct H as [Hc Hr].
  apply negb_true_iff, orb_false_iff in Hc. destruct Hc as [-> _].
  now apply IH.
Qed.

Lemma strip_index_suffix s i :
  free_of is_open s = true ->
  free_of is_close_or_lf i = true ->
  strip_index (s ++ String "[" (i ++ "]")) = s.
Proof.
  intros Hs Hi. unfold strip_index.
  induction s as [|c r IH]; simpl.
  - now rewrite closes_suffix, skip_suffix.
  - simpl in Hs. apply andb_true_iff in Hs. destruct Hs as [Hc Hr].
    unfold is_open in Hc. apply negb_true_iff in Hc. rewrite Hc. simpl.
    now rewrite IH.
Qed.

End Segments.

Section Chains.
Variable json_dumps : value -> string.
Variable valid_tag : string -> bool.
Variable valid_text : string -> bool.

Lemma find_index_Some A (p : A -> bool) l : forall i,
    find_index p l = Some i -> exists x, nth_error l i = Some x /\ p x = true.
Proof.
  induction l as [|y r IH]; simpl; intros i H; [discriminate|].
  destruct (p y) eqn:E.
  - injection H as <-. now exists y.
  - destruct (find_index p r) as [j|]; [|discriminate].
    injection H as <-. simpl. now apply IH.
Qed.

Lemma find_index_replace A (p : A -> bool) l : forall i x y,
    nth_error l i = Some x -> p y = p x ->
    find_index p (replace_nth i y l) = find_index p l.
Proof.
  induction l as [|z r IH]; intros [|i] x y Hn Hp; simpl in *;
    try discriminate.
  - injection Hn as ->. now rewrite Hp.
  - now rewrite (IH i x y Hn Hp).
Qed.

Lemma nth_error_replace A (l : list A) : forall i x y,
    nth_error l i = Some x -> nth_error (replace_nth i y l) i = Some y.
Proof.
  induction l as [|z r IH]; intros [|i] x y Hn; simpl in *;
    try discriminate; [reflexivity | now apply IH with x].
Qed.

Lemma find_index_snoc A (p : A -> bool) l y :
  find_index p l = None ->
  find_index p (l ++ [y]) = if p y then Some (length l) else None.
Proof.
  induction l as [|z r IH]; simpl; intro H.
  - destruct (p y); reflexivity.
  - destruct (p z); [discriminate|].
    destruct (find_index p r); [discriminate|].
    rewrite IH by reflexivity. destruct (p y); reflexivity.
Qed.

Lemma nth_error_snoc A (l : list A) y : nth_error (l ++ [y]) (length l) = Some y.
Proof.
  rewrite nth_error_app2, Nat.sub_diag by lia. reflexivity.
Qed.

Lemma list_sum_replace A (f : A -> nat) l : forall i x y,
    nth_error l i = Some x ->
    list_sum (map f (replace_nth i y l)) + f x = list_sum (map f l) + f y.
Proof.
  induction l as [|z r IH]; intros [|i] x y Hn; simpl in *;
    try discriminate.
  - injection Hn as ->. lia.
  - specialize (IH i x y Hn). lia.
Qed.

Lemma size_unfold e : size e = S (list_sum (map size (children e))).
Proof.
  unfold size. destruct e as [n t a x kids]. simpl. f_equal.
  induction kids as [|k r IH]; simpl; [reflexivity|].
  now rewrite length_app, IH.
Qed.

Lemma set_chain_shape names : forall txt cur r,
    set_chain valid_tag valid_text names txt cur = Some r ->
    ns r = ns cur /\ tag r = tag cur /\ attrib r = attrib cur.
Proof.
  destruct names as [|n rest]; simpl; intros txt cur r H.
  - destruct (valid_text txt); [|discriminate]. injection H as <-. auto.
  - destruct (valid_tag n); [|discriminate].
    destruct (find_child n cur) as [i|].
    + destruct (nth_error (children cur) i) as [child|]; [|discriminate].
      destruct (set_chain valid_tag valid_text rest txt child); [|discriminate].
      injection H as <-. auto.
    + destruct (set_chain valid_tag valid_text rest txt (new_element n)); [|discriminate].
      injection H as <-. auto.
Qed.

Lemma find_child_nth n cur i :
  find_child n cur = Some i -> exists child, nth_error (children cur) i = Some child.
Proof.
  unfold find_child.
  destruct (find_index (has_name_attr n) (children cur)) as [j|] eqn:E.
  - intros [= <-]. destruct (find_index_Some _ _ _ _ E) as [x [Hx _]]. eauto.
  - intro H. destruct (find_index_Some _ _ _ _ H) as [x [Hx _]]. eauto.
Qed.

Lemma find_child_replace n cur i child child' :
  nth_error (children cur) i = Some child ->
  ns child' = ns child -> tag child' = tag child ->
  attrib child' = attrib child ->
  find_child n (set_children cur (replace_nth i child' (children cur)))
  = find_child n cur.
Proof.
  intros Hn Hns Htag Hattr. unfold find_child. simpl.
  rewrite (find_index_replace _ (has_name_attr n) _ i child child' Hn).
  2:{ unfold has_name_attr, get_attr. now rewrite Hattr. }
  rewrite (find_index_replace _ (plain_tag n) _ i child child' Hn).
  2:{ unfold plain_tag. now rewrite Hns, Htag. }
  reflexivity.
Qed.

Lemma find_child_new n cur child' :
  find_child n cur = None ->
  ns child' = None -> tag child' = n -> attrib child' = [] ->
  find_child n (set_children cur (children cur ++ [child']))
  = Some (length (children cur)).
Proof.
  unfold find_child. intros H Hns Htag Hattr. simpl.
  destruct (find_index (has_name_attr n) (children cur)) eqn:E1;
    [discriminate|].
  rewrite (find_index_snoc _ _ _ _ E1), (find_index_snoc _ _ _ _ H).
  unfold has_name_attr, get_attr, plain_tag.
  rewrite Hattr, Hns, Htag, String.eqb_refl. reflexivity.
Qed.

Lemma missing_no_children names cur :
  children cur = [] -> missing names cur = length names.
Proof.
  intro H. destruct names as [|n rest]; simpl; [reflexivity|].
  unfold find_child. now rewrite H.
Qed.

(** On valid names the walk returns; the chain then leads to an element
    that holds the text, and the tree has grown by the elements that
    were missing. *)
Lemma set_chain_ok names : forall txt cur,
    Forall (fun n => valid_tag n = true) names ->
    valid_text txt = true ->
    exists r leaf,
      set_chain valid_tag valid_text names txt cur = Some r
      /\ descend names r = Some leaf
      /\ text leaf = Some txt
      /\ size r = size cur + missing names cur.
Proof.
  induction names as [|n rest IH]; intros txt cur Hvalid Hok.
  - exists (set_text cur txt), (set_text cur txt). simpl. rewrite Hok.
    repeat split. rewrite !size_unfold. simpl. lia.
  - inversion Hvalid as [|? ? Hn Hrest]; subst.
    simpl. rewrite Hn.
    destruct (find_child n cur) as [i|] eqn:F.
    + destruct (find_child_nth n cur i F) as [child Hchild].
      rewrite Hchild.
      destruct (IH txt child Hrest Hok)
        as [child' [leaf [Hset [Hdesc [Htext Hsize]]]]].
      rewrite Hset. simpl.
      destruct (set_chain_shape _ _ _ _ Hset) as [Hns [Htag Hattr]].
      exists (set_children cur (replace_nth i child' (children cur))), leaf.
      split; [reflexivity|].
      rewrite (find_child_replace n cur i child child' Hchild Hns Htag Hattr), F.
      simpl. rewrite (nth_error_replace _ _ i child child' Hchild).
      split; [exact Hdesc|]. split; [exact Htext|].
      rewrite (size_unfold (set_children _ _)), (size_unfold cur). simpl.
      pose proof (list_sum_replace _ size _ i child child' Hchild). lia.
    + destruct (IH txt (new_element n) Hrest Hok)
        as [child' [leaf [Hset [Hdesc [Htext Hsize]]]]].
      rewrite Hset. simpl.
      destruct (set_chain_shape _ _ _ _ Hset) as [Hns [Htag Hattr]].
      exists (set_children cur (children cur ++ [child'])), leaf.
      split; [reflexivity|].
      rewrite (find_child_new n cur child' F Hns Htag Hattr).
      simpl. rewrite nth_error_snoc.
      split; [exact Hdesc|]. split; [exact Htext|].
      rewrite (size_unfold (set_children _ _)), (size_unfold cur). simpl.
      rewrite map_app, list_sum_app. simpl.
      rewrite Hsize, (missing_no_children rest (new_element n) eq_refl).
      rewrite (size_unfold (new_element n)). simpl. lia.
Qed.

Lemma set_value_by_ref_names root ref v :
  path_parts ref <> [] ->
  _set_value_by_ref json_dumps valid_tag valid_text root ref v
  = set_chain valid_tag valid_text (path_names ref) (value_text json_dumps v) root.
Proof.
  unfold _set_value_by_ref, path_names.
  destruct (path_parts ref); [congruence | reflexivity].
Qed.

End Chains.

(** What the resolver does on the references the library accepts.  The
    reference is stripped and split at every [.] and [/]; the parts that
    are empty are dropped, so that a part is never empty and holds no
    separator; an index [[...]] after a name is removed.  When the names
    are tags the XML library accepts and the text is one it accepts, the
    call returns; after it the chain of names leads from the root to an
    element whose text is the string form of the value (the JSON text for
    a mapping or a sequence, the empty string for [None]), and the tree
    has grown by exactly the elements that were missing.  On a root
    without children the reference [a.b[0].c] gives the three nested
    elements [a], [b], [c].  A reference without parts leaves the root as
    it is. *)
Lemma set_value_by_ref_on_accepted_names :
  forall (json_dumps : value -> string) (valid_tag valid_text : string -> bool),
    (forall ref,
        String.concat "" (re_split (strip ref)) = remove_seps (strip ref)
        /\ forall p, In p (path_parts ref) ->
                     p <> "" /\ free_of is_sep p = true
                     /\ In p (re_split (strip ref)))
    /\ (forall s i,
          free_of is_open s = true -> free_of is_close_or_lf i = true ->
          strip_index (s ++ String "[" (i ++ "]")) = s)
    /\ (forall root ref v,
          Forall (fun n => valid_tag n = true) (path_names ref) ->
          valid_text (value_text json_dumps v) = true ->
          path_parts ref <> [] ->
          exists root' leaf,
            _set_value_by_ref json_dumps valid_tag valid_text root ref v = Some root'
            /\ descend (path_names ref) root' = Some leaf
            /\ text leaf = Some (value_text json_dumps v)
            /\ size root' = size root + missing (path_names ref) root)
    /\ (forall root ref v,
          path_parts ref = [] ->
          _set_value_by_ref json_dumps valid_tag valid_text root ref v = Some root)
    /\ (value_text json_dumps VNone = ""
        /\ (forall l, value_text json_dumps (VList l) = json_dumps (VList l))
        /\ (forall d, value_text json_dumps (VDict d) = json_dumps (VDict d))
        /\ (forall s, value_text json_dumps (VStr s) = s))
    /\ (forall root v,
          children root = [] ->
          valid_tag "a" = true -> valid_tag "b" = true -> valid_tag "c" = true ->
          valid_text (value_text json_dumps v) = true ->
          path_names "a.b[0].c" = ["a"; "b"; "c"]
          /\ _set_value_by_ref json_dumps valid_tag valid_text root "a.b[0].c" v =
             Some (set_children root
                     [mkElem None "a" [] None
                        [mkElem None "b" [] None
                           [mkElem None "c" [] (Some (value_text json_dumps v)) []]]])).
Proof.
  intros json_dumps valid_tag valid_text.
  split; [|split; [|split; [|split; [|split]]]].
  - intro ref. split; [apply re_split_concat|].
    intros p Hp. unfold path_parts in Hp. apply filter_In in Hp.
    destruct Hp as [Hin Hne]. split; [|split].
    + intros ->. discriminate.
    + now apply re_split_free with (strip ref).
    + exact Hin.
  - exact strip_index_suffix.
  - intros root ref v Hvalid Htext Hparts.
    rewrite (set_value_by_ref_names _ _ _ _ _ _ Hparts).
    apply set_chain_ok; assumption.
  - intros root ref v Hparts. unfold _set_value_by_ref. now rewrite Hparts.
  - repeat split.
  - intros root v Hkids Ha Hb Hc Htext. split; [reflexivity|].
    rewrite set_value_by_ref_names by discriminate.
    change (path_names "a.b[0].c") with ["a"; "b"; "c"].
    cbn [set_chain]. rewrite Ha.
    unfold find_child at 1. rewrite Hkids.
    cbn [find_index option_map new_element children app].
    rewrite Hb, Hc, Htext. reflexivity.
Qed.

(** C5 on the code.  The reference [$.data.contact.email], the form a
    [bind/@ref] has and the one of the specification's own example, does
    not return on a data root without children: its first name is [$],
    which the XML library refuses as a tag, so that no element is created
    and no text is set; the sibling [_sanitize_ref_name] removes the
    preamble [$.] and gives [email].  The reference [[0]] has a part, so that
    the guard for a reference without parts does not hold, and its name
    after the index is removed is empty: the call does not return either.
    Without the preamble, [data.contact.email] gives the three nested
    elements with the text of the value. *)
Theorem set_value_by_ref_refuses_preamble :
  forall (json_dumps : value -> string) (v : value)
         (root_ns : option string) (root_tag : string)
         (root_attrib : list (string * string)) (root_text : option string),
    path_names "$.data.contact.email" = ["$"; "data"; "contact"; "email"]
    /\ xml_tag_ok "$" = false
    /\ _set_value_by_ref json_dumps xml_tag_ok xml_text_ok
         (mkElem root_ns root_tag root_attrib root_text [])
         "$.data.contact.email" v = None
    /\ _sanitize_ref_name "$.data.contact.email" = Some "email"
    /\ path_parts "[0]" = ["[0]"]
    /\ path_names "[0]" = [""]
    /\ _set_value_by_ref json_dumps xml_tag_ok xml_text_ok
         (mkElem root_ns root_tag root_attrib root_text []) "[0]" v = None
    /\ _set_value_by_ref json_dumps xml_tag_ok xml_text_ok
         (mkElem root_ns root_tag root_attrib root_text [])
         "data.contact.email" (VStr "a@b.com")
       = Some (mkElem root_ns root_tag root_attrib root_text
                 [mkElem None "data" [] None
                    [mkElem None "contact" [] None
                       [mkElem None "email" [] (Some "a@b.com") []]]]).
Proof.
  intros json_dumps v root_ns root_tag root_attrib root_text.
  repeat split.
Qed.

(** * Further properties *)

(** ** Full names *)

Section FullNames.

Lemma join_nonempty sep l :
  Forall (fun s => nonempty s = true) l ->
  nonempty (join sep l) = match l with [] => false | _ => true end.
Proof.
  destruct l as [|x r]; [reflexivity|]. intro H.
  inversion H as [|? ? Hx _]; subst.
  destruct x as [|c x']; [discriminate|].
  destruct r; reflexivity.
Qed.

Lemma join_snoc sep l x :
  l <> [] -> join sep (l ++ [x]) = (join sep l ++ sep ++ x)%string.
Proof.
  induction l as [|y r IH]; [congruence|]. intros _.
  destruct r as [|z r'].
  - reflexivity.
  - change (join sep ((y :: z :: r') ++ [x]))
      with (y ++ sep ++ join sep ((z :: r') ++ [x]))%string.
    rewrite IH by discriminate.
    change (join sep (y :: z :: r')) with (y ++ sep ++ join sep (z :: r'))%string.
    now rewrite !append_assoc.
Qed.

Lemma filter_nonempty_all l :
  Forall (fun s => nonempty s = true) (filter nonempty l).
Proof.
  apply Forall_forall. intros s H. now apply filter_In in H.
Qed.

(** The name a node gets from the name of its parent is the dotted path
    one name longer. *)
Lemma full_name_dotted above n :
  full_name_of (dotted above) n = dotted (above ++ [n]).
Proof.
  unfold full_name_of, dotted. rewrite filter_app.
  rewrite (join_nonempty "." _ (filter_nonempty_all above)).
  cbn [filter].
  destruct (nonempty n) eqn:En.
  - destruct (filter nonempty above) as [|a r] eqn:E.
    + reflexivity.
    + cbn [andb]. now rewrite join_snoc by discriminate.
  - rewrite andb_false_r, app_nil_r. reflexivity.
Qed.

Lemma field_paths_unfold fld above :
  field_paths fld above =
  flat_map (fun c => field_paths c (above ++ [name_of fld])) (child_fields_of fld)
  ++ [(above ++ [name_of fld], fld)].
Proof.
  destruct fld; simpl. f_equal. apply over_fields.
Qed.

Lemma field_nodes_paths fld :
  forall above,
    field_nodes fld (dotted above) =
    map (fun pn => (dotted (fst pn), snd pn)) (field_paths fld above).
Proof.
  induction fld as [fld IH] using pdfobj_ind. intro above.
  rewrite field_nodes_unfold, field_paths_unfold, map_app, map_flat_map.
  rewrite full_name_dotted. f_equal.
  apply typed_flat_map, Forall_forall. intros c Hc.
  apply filter_In in Hc. destruct Hc as [Hc _].
  rewrite Forall_forall in IH. now apply IH.
Qed.

Lemma filter_map_comm A B (g : A -> B) (p : B -> bool) l :
  filter p (map g l) = map g (filter (fun x => p (g x)) l).
Proof.
  induction l as [|x r IH]; simpl; [reflexivity|].
  destruct (p (g x)); simpl; now rewrite IH.
Qed.

Lemma walk_fields_paths fld above :
  walk_fields fld (dotted above) =
  map (fun pn => mkEntry (dotted (fst pn)) (snd pn) (widgets_of (snd pn)))
    (filter typed_path (field_paths fld above)).
Proof.
  rewrite walk_fields_nodes, field_nodes_paths, filter_map_comm, map_map.
  reflexivity.
Qed.

End FullNames.

(** X1. The full name of every entry of the flattened table is the local
    names on the way from a root field down to its node, those that are
    not empty, joined by dots; a node without a name adds nothing to the
    names below it. *)
Theorem full_names_are_dotted_paths :
  forall fields : list pdfobj,
    flatten_all_fields fields =
    map (fun pn => mkEntry (dotted (fst pn)) (snd pn) (widgets_of (snd pn)))
      (filter typed_path (flat_map (fun f => field_paths f []) fields)).
Proof.
  intro fields. unfold flatten_all_fields.
  rewrite filter_flat_map, map_flat_map.
  apply typed_flat_map, Forall_forall. intros fld _.
  apply (walk_fields_paths fld []).
Qed.

(** ** The field names of the XFA tool's AcroForm walk *)

Section AcroNames.

Lemma walk_unfold field_obj parent_parts :
  walk field_obj parent_parts =
  (match FT field_obj,
         parent_parts
         ++ (if nonempty (name_of field_obj) then [name_of field_obj] else [])
   with
   | Some _, _ :: _ =>
       if negb (is_readonly field_obj)
       then [join "."
               (parent_parts
                ++ (if nonempty (name_of field_obj)
                    then [name_of field_obj] else []))]
       else []
   | _, _ => []
   end)
  ++ flat_map
       (fun k =>
          walk k
            (parent_parts
             ++ (if nonempty (name_of field_obj)
                 then [name_of field_obj] else [])))
       (Kids field_obj).
Proof.
  destruct field_obj as [t ft ff st ap v a kids]. reflexivity.
Qed.

Lemma is_readonly_flags fld :
  is_readonly fld = is_read_only (get_field_flags fld).
Proof.
  unfold is_readonly, get_field_flags.
  destruct (Ff fld) as [[n|]|]; try reflexivity.
  rewrite is_read_only_bit, Z.bit0_odd.
  change 1%Z with (Z.ones 1). rewrite Z.land_ones by lia.
  change (2 ^ 1)%Z with 2%Z. rewrite Zmod_odd.
  destruct (Z.odd n); reflexivity.
Qed.

Lemma filter_nonempty_snoc above n :
  filter nonempty (above ++ [n]) =
  filter nonempty above ++ (if nonempty n then [n] else []).
Proof. rewrite filter_app. reflexivity. Qed.

(** An entry of the flattener that has a name and is not read-only is a
    name of the walk. *)
Lemma walk_has_entries fld :
  forall above e,
    In e (walk_fields fld (dotted above)) ->
    nonempty (name e) = true ->
    is_read_only (get_field_flags (field e)) = false ->
    In (name e) (walk fld (filter nonempty above)).
Proof.
  induction fld as [fld IH] using pdfobj_ind. intros above e Hin Hname Hro.
  rewrite walk_fields_unfold, full_name_dotted in Hin.
  rewrite walk_unfold, <- filter_nonempty_snoc.
  apply in_app_iff in Hin. apply in_app_iff. destruct Hin as [Hin|Hin].
  - right. apply in_flat_map in Hin. destruct Hin as [c [Hc He]].
    apply filter_In in Hc. destruct Hc as [Hc _].
    apply in_flat_map. exists c. split; [exact Hc|].
    rewrite Forall_forall in IH. now apply (IH c Hc (above ++ [name_of fld])).
  - left. unfold own_entry in Hin.
    destruct (FT fld) as [t|] eqn:Eft; [|destruct Hin].
    destruct Hin as [<-|[]]. simpl in Hname, Hro.
    unfold dotted in Hname.
    rewrite (join_nonempty "." _ (filter_nonempty_all _)) in Hname.
    destruct (filter nonempty (above ++ [name_of fld])) as [|p ps] eqn:E;
      [discriminate|].
    rewrite is_readonly_flags, Hro. simpl. left.
    unfold dotted. now rewrite E.
Qed.

End AcroNames.

(** X2. Every line of the fillable-field listing of the AcroForm extractor
    is among the field names the XFA extractor collects from the same
    [/Fields] in its AcroForm walk. *)
Theorem fillable_lines_are_field_keys :
  forall (fields : list pdfobj) (line : string),
    In line (fillable_lines (flatten_all_fields fields)) ->
    In line (_extract_acroform_field_names fields).
Proof.
  intros fields line Hin.
  rewrite fillable_lines_filter in Hin. apply in_map_iff in Hin.
  destruct Hin as [e [<- He]]. apply filter_In in He.
  destruct He as [He Hf]. unfold fillable in Hf.
  apply andb_true_iff in Hf. destruct Hf as [Hf _].
  apply andb_true_iff in Hf. destruct Hf as [Hf _].
  apply andb_true_iff in Hf. destruct Hf as [Hname Hro].
  apply negb_true_iff in Hro. rewrite <- is_read_only_bit in Hro.
  unfold flatten_all_fields in He. apply in_flat_map in He.
  destruct He as [fld [Hfld He]].
  unfold _extract_acroform_field_names. apply in_flat_map.
  exists fld. split; [exact Hfld|].
  now apply (walk_has_entries fld [] e).
Qed.

Lemma fillable_lines_are_field_keys_witness :
  In "name.first"
    (_extract_acroform_field_names [group "name" [text_field "first"]]).
Proof.
  apply fillable_lines_are_field_keys. simpl. auto.
Defined.

(** ** Applying values *)

Section Applying.
Variable py_str : value -> string.

Lemma same_but_value_refl o : same_but_value o o.
Proof. repeat split. Qed.

Lemma same_but_value_set_V o v : same_but_value o (set_V o v).
Proof. repeat split. Qed.

Lemma same_but_value_set_AS o v : same_but_value o (set_AS o v).
Proof. repeat split. Qed.

Lemma same_radio_state sel w : same_but_value w (radio_state sel w).
Proof.
  unfold radio_state. destruct (get_appearance_names w) as [on off].
  destruct (mem sel on); apply same_but_value_set_AS.
Qed.

Lemma same_checkbox_state w : same_but_value w (checkbox_state w).
Proof.
  unfold checkbox_state. destruct (get_appearance_names w) as [on off].
  apply same_but_value_set_AS.
Qed.

Lemma Forall2_map_r A (R : A -> A -> Prop) (g : A -> A) l :
  (forall x, R x (g x)) -> Forall2 R l (map g l).
Proof.
  intro H. induction l as [|x r IH]; simpl; constructor; auto.
Qed.

Lemma Forall2_refl A (R : A -> A -> Prop) l :
  (forall x, R x x) -> Forall2 R l l.
Proof.
  intro H. induction l as [|x r IH]; constructor; auto.
Qed.

(** The button applier writes [/V] of the field and [/AS] of the widgets
    and nothing else. *)
Lemma set_checkbox_or_radio_same fld ws val fld' ws' :
  set_checkbox_or_radio fld ws val = Ok (fld', ws') ->
  same_but_value fld fld' /\ Forall2 same_but_value ws ws'.
Proof.
  unfold set_checkbox_or_radio.
  destruct (is_push_button (get_field_flags fld)).
  - intros [= <- <-]. split; [apply same_but_value_refl|].
    apply Forall2_refl, same_but_value_refl.
  - destruct (collect_names ws) as [all off].
    destruct (select_on_ok val all) as [r [-> _]]. simpl.
    destruct (is_radio (get_field_flags fld)); destruct (truthy_name r);
      intros [= <- <-]; (split; [apply same_but_value_set_V|]);
      apply Forall2_map_r; intro w;
      auto using same_radio_state, same_checkbox_state, same_but_value_set_AS.
Qed.

Lemma same_set_choice fld val : same_but_value fld (set_choice py_str fld val).
Proof.
  unfold set_choice. destruct val as [| | | | |[|x l]|];
    auto using same_but_value_refl, same_but_value_set_V.
Qed.

Lemma apply_value_to_field_ok fentry val :
  exists fentry',
    apply_value_to_field py_str fentry val = Ok fentry'
    /\ name fentry' = name fentry
    /\ same_but_value (field fentry) (field fentry')
    /\ Forall2 same_but_value (widgets fentry) (widgets fentry').
Proof.
  unfold apply_value_to_field.
  destruct (String.eqb (to_str_name (FT (field fentry))) "/Tx").
  { eexists. split; [reflexivity|]. simpl. split; [reflexivity|].
    split; [apply same_but_value_set_V|].
    apply Forall2_refl, same_but_value_refl. }
  destruct (String.eqb (to_str_name (FT (field fentry))) "/Ch").
  { eexists. split; [reflexivity|]. simpl. split; [reflexivity|].
    split; [apply same_set_choice|].
    apply Forall2_refl, same_but_value_refl. }
  destruct (String.eqb (to_str_name (FT (field fentry))) "/Btn").
  { destruct (set_checkbox_or_radio_ok (field fentry) (widgets fentry) val)
      as [[fld' ws'] Hst].
    rewrite Hst. simpl. eexists. split; [reflexivity|]. simpl.
    split; [reflexivity|]. now apply set_checkbox_or_radio_same with val. }
  exists fentry. split; [reflexivity|]. split; [reflexivity|].
  split; [apply same_but_value_refl|].
  apply Forall2_refl, same_but_value_refl.
Qed.

End Applying.

(** X3. Applying a value to an entry always returns, whatever the type of
    the field and the value; the entry keeps its full name, and the field
    and each widget keep every key but [/V] and [/AS] ([/T], [/FT], [/Ff],
    [/Subtype], [/AP], [/Kids]).  A field that is neither text, choice nor
    button is left exactly as it was. *)
Theorem apply_writes_values_only :
  forall (py_str : value -> string) (fentry : entry) (val : value),
    (exists fentry',
        apply_value_to_field py_str fentry val = Ok fentry'
        /\ name fentry' = name fentry
        /\ same_but_value (field fentry) (field fentry')
        /\ Forall2 same_but_value (widgets fentry) (widgets fentry'))
    /\ (FT (field fentry) <> Some "Tx" ->
        FT (field fentry) <> Some "Ch" ->
        FT (field fentry) <> Some "Btn" ->
        apply_value_to_field py_str fentry val = Ok fentry).
Proof.
  intros py_str fentry val. split; [apply apply_value_to_field_ok|].
  intros Htx Hch Hbtn. unfold apply_value_to_field.
  assert (Hne : forall t, FT (field fentry) <> Some t ->
                          String.eqb (to_str_name (FT (field fentry))) (name_str t)
                          = false).
  { intros t Ht. apply String.eqb_neq. unfold to_str_name, name_str.
    destruct (FT (field fentry)) as [n|]; [|discriminate].
    intros [= ->]. now apply Ht. }
  change "/Tx" with (name_str "Tx"). change "/Ch" with (name_str "Ch").
  change "/Btn" with (name_str "Btn").
  now rewrite (Hne "Tx" Htx), (Hne "Ch" Hch), (Hne "Btn" Hbtn).
Qed.

Lemma apply_writes_values_only_witness :
  apply_value_to_field (fun _ => "x")
    (mkEntry "sig" (mkObj (Some "sig") (Some "Sig") None None None None None []) [])
    (VStr "Ann")
  = Ok (mkEntry "sig" (mkObj (Some "sig") (Some "Sig") None None None None None []) []).
Proof.
  apply (proj2 (apply_writes_values_only (fun _ => "x")
                  (mkEntry "sig"
                     (mkObj (Some "sig") (Some "Sig") None None None None None []) [])
                  (VStr "Ann"))); discriminate.
Defined.

(** ** Resolution and names *)

Section ResolutionNames.
Variable g : entry -> entry.
Hypothesis g_name : forall f, name (g f) = name f.
Hypothesis g_local : forall f, name_of (field (g f)) = name_of (field f).

Lemma find_map_comm A B (h : A -> B) (p : B -> bool) l :
  find p (map h l) = option_map h (find (fun x => p (h x)) l).
Proof.
  induction l as [|x r IH]; simpl; [reflexivity|].
  destruct (p (h x)); [reflexivity | exact IH].
Qed.

Lemma last_error_map A B (h : A -> B) l :
  last_error (map h l) = option_map h (last_error l).
Proof.
  unfold last_error. rewrite <- map_rev. destruct (rev l); reflexivity.
Qed.

Lemma filter_full_is_map key fields :
  filter (full_is key) (map g fields) = map g (filter (full_is key) fields).
Proof.
  rewrite filter_map_comm. f_equal. apply filter_ext.
  intro f. unfold full_is. now rewrite g_name.
Qed.

Lemma filter_local_is_map key fields :
  filter (local_is key) (map g fields) = map g (filter (local_is key) fields).
Proof.
  rewrite filter_map_comm. f_equal. apply filter_ext.
  intro f. unfold local_is. now rewrite g_local.
Qed.

Lemma resolve_table_map fields key :
  resolve_table (map g fields) key = option_map g (resolve_table fields key).
Proof.
  unfold resolve_table.
  rewrite filter_full_is_map, last_error_map.
  destruct (last_error (filter (full_is key) fields)) as [f|]; [reflexivity|].
  cbn [option_map]. rewrite filter_local_is_map.
  assert (Hfull : find (full_like key) (map g fields)
                  = option_map g (find (full_like key) fields)).
  { rewrite find_map_comm. f_equal. apply find_ext_in.
    intros f _. unfold full_like. now rewrite g_name. }
  assert (Hshort :
            find (fun f => local_like key f && sole_spelling (map g fields) f)
              (map g fields)
            = option_map g
                (find (fun f => local_like key f && sole_spelling fields f) fields)).
  { rewrite find_map_comm. f_equal. apply find_ext_in.
    intros f _. unfold local_like, sole_spelling.
    now rewrite g_local, filter_local_is_map, length_map. }
  assert (Hrest :
            match find (full_like key) (map g fields) with
            | Some g0 => last_error (filter (full_is (name g0)) (map g fields))
            | None =>
                find (fun f => local_like key f && sole_spelling (map g fields) f)
                  (map g fields)
            end
            = option_map g
                match find (full_like key) fields with
                | Some g0 => last_error (filter (full_is (name g0)) fields)
                | None =>
                    find (fun f => local_like key f && sole_spelling fields f)
                      fields
                end).
  { rewrite Hfull, Hshort.
    destruct (find (full_like key) fields) as [g0|]; cbn [option_map];
      [|reflexivity].
    now rewrite g_name, filter_full_is_map, last_error_map. }
  destruct (filter (local_is key) fields) as [|c [|c' r]]; cbn [map];
    [exact Hrest | reflexivity | exact Hrest].
Qed.

End ResolutionNames.

(** X4. Resolution reads the full names and the local names only: when
    the entries of a table are changed in a way that keeps both, as every
    application of a value does ([apply_writes_values_only]), each key
    resolves to the entry in the same place as before.  The keys of one
    batch therefore do not influence each other's resolution. *)
Theorem resolution_reads_names_only :
  forall (g : entry -> entry),
    (forall f, name (g f) = name f) ->
    (forall f, name_of (field (g f)) = name_of (field f)) ->
    forall (fields : list entry) (key : string),
      resolve (map g fields) key =
      match resolve fields key with
      | Ok found => Ok (option_map g found)
      | Raise e => Raise e
      end.
Proof.
  intros g Hname Hlocal fields key.
  rewrite !resolve_on_table. f_equal. now apply resolve_table_map.
Qed.

Lemma resolution_reads_names_only_witness :
  resolve
    (map (fun f => mkEntry (name f) (set_V (field f) (PdfString "Ann")) (widgets f))
       (flatten_all_fields [group "A" [text_field "B"]])) "b"
  = Ok (Some (mkEntry "A.B" (set_V (text_field "B") (PdfString "Ann")) [])).
Proof.
  pose proof (resolution_reads_names_only
              (fun f => mkEntry (name f) (set_V (field f) (PdfString "Ann")) (widgets f))
              (fun f => eq_refl) (fun f => eq_refl)
              (flatten_all_fields [group "A" [text_field "B"]]) "b") as H.
  rewrite H. reflexivity.
Defined.

(** ** States of buttons *)

Section ButtonStates.

Lemma truthy_false_selects val cands :
  truthy val = false -> select_on val cands = Ok None.
Proof.
  intro H. destruct cands as [|c l]; [reflexivity|].
  unfold select_on.
  destruct val as [|b|n|f|s|u|d]; simpl in *; try reflexivity;
    now rewrite H.
Qed.

Lemma first_on_name w :
  exists X, hd_error (fst (get_appearance_names w)) = Some X.
Proof.
  pose proof (on_names_nonempty w) as H.
  destruct (fst (get_appearance_names w)) as [|X l]; [congruence|].
  now exists X.
Qed.

Lemma state_radio sel w : state_of w (AS (radio_state sel w)).
Proof.
  unfold radio_state, state_of.
  pose proof (off_name_is_off w) as Hoff.
  destruct (get_appearance_names w) as [on off] eqn:E. simpl in *. subst off.
  destruct (mem sel on) eqn:M; simpl.
  - right. exists sel. split; [now apply mem_In | reflexivity].
  - now left.
Qed.

Lemma state_checkbox w : state_of w (AS (checkbox_state w)).
Proof.
  unfold checkbox_state, state_of.
  pose proof (on_names_nonempty w) as Hne.
  destruct (get_appearance_names w) as [on off]. simpl in *.
  destruct on as [|n l]; [congruence|].
  right. exists n. simpl. auto.
Qed.

End ButtonStates.

(** X5. After a value is applied to a button that is not a push button,
    the stored value is the off-name or an on-name of one of the widgets,
    and the state of each widget is the off-name or one of that widget's
    own on-names: no name is written that the appearances do not define,
    whatever the value. *)
Theorem button_states_are_defined :
  forall (fld : pdfobj) (widgets : list pdfobj) (val : value),
    is_push_button (get_field_flags fld) = false ->
    exists fld' widgets',
      set_checkbox_or_radio fld widgets val = Ok (fld', widgets')
      /\ (V fld' = Some (PdfName "/Off")
          \/ exists w, In w widgets /\ state_of w (V fld')
                       /\ V fld' <> Some (PdfName "/Off"))
      /\ Forall2 (fun w w' => state_of w (AS w')) widgets widgets'.
Proof.
  intros fld widgets val Hpush.
  unfold set_checkbox_or_radio. rewrite Hpush.
  pose proof (collect_names_off widgets) as Hoff.
  pose proof (collect_names_In widgets) as HIn.
  destruct (collect_names widgets) as [all off]. simpl in Hoff, HIn. subst off.
  destruct (select_on_ok val all) as [r [-> Hsel]]. simpl.
  assert (Hoffs : Forall2 (fun w w' => state_of w (AS w')) widgets
                    (map (fun w => set_AS w (PdfName "/Off")) widgets)).
  { apply Forall2_map_r. intro w. now left. }
  assert (Hstored : forall X, r = Some X -> nonempty X = true ->
            exists w, In w widgets /\ state_of w (Some (PdfName X))
                      /\ Some (PdfName X) <> Some (PdfName "/Off")).
  { intros X -> _. destruct (proj1 (HIn X) (Hsel X eq_refl)) as [w [Hw HX]].
    exists w. split; [exact Hw|]. split.
    - right. now exists X.
    - intros [= ->]. now apply (on_names_not_off w "/Off" HX). }
  destruct (is_radio (get_field_flags fld));
    destruct r as [X|]; simpl;
    try (destruct (nonempty X) eqn:EX);
    eexists; eexists; (split; [reflexivity|]); simpl;
    try (split; [now left | exact Hoffs]).
  - split; [right; now apply Hstored|].
    apply Forall2_map_r. intro w. apply state_radio.
  - split; [right; now apply Hstored|].
    apply Forall2_map_r. intro w. apply state_checkbox.
Qed.

Lemma button_states_are_defined_witness :
  exists fld' widgets',
    set_checkbox_or_radio (button 0)
      [widget_with (Some (mkAP (Some ["On"; "Off"])))] (VStr "whatever")
    = Ok (fld', widgets')
    /\ V fld' = Some (PdfName "/On")
    /\ map AS widgets' = [Some (PdfName "/On")].
Proof.
  destruct (button_states_are_defined (button 0)
              [widget_with (Some (mkAP (Some ["On"; "Off"])))] (VStr "whatever")
              eq_refl) as [fld' [widgets' [Hst _]]].
  exists fld', widgets'. split; [exact Hst|].
  vm_compute in Hst. injection Hst as <- <-. split; reflexivity.
Defined.

(** X6. A value that is [False], zero, a blank string, [None], a list or
    a mapping switches a checkbox or a radio group off: the stored value
    and the state of every widget become ["/Off"]. *)
Theorem falsy_value_switches_off :
  forall (fld : pdfobj) (widgets : list pdfobj) (val : value),
    is_push_button (get_field_flags fld) = false ->
    truthy val = false ->
    set_checkbox_or_radio fld widgets val =
    Ok (set_V fld (PdfName "/Off"),
        map (fun w => set_AS w (PdfName "/Off")) widgets).
Proof.
  intros fld widgets val Hpush Hfalsy.
  unfold set_checkbox_or_radio. rewrite Hpush.
  pose proof (collect_names_off widgets) as Hoff.
  destruct (collect_names widgets) as [all off]. simpl in Hoff. subst off.
  rewrite (truthy_false_selects val all Hfalsy). simpl.
  destruct (is_radio (get_field_flags fld)); reflexivity.
Qed.

Lemma falsy_value_switches_off_witness :
  set_checkbox_or_radio (button 32768)
    [widget_with (Some (mkAP (Some ["A"; "Off"])))] (VStr "   ")
  = Ok (set_V (button 32768) (PdfName "/Off"),
        [set_AS (widget_with (Some (mkAP (Some ["A"; "Off"])))) (PdfName "/Off")]).
Proof.
  apply (falsy_value_switches_off (button 32768)
           [widget_with (Some (mkAP (Some ["A"; "Off"])))] (VStr "   "));
    reflexivity.
Defined.

(** ** SOM paths *)

Section SomPaths.

Lemma dict_get_setdefault A k k' (v : A) d :
  dict_get k (dict_setdefault k' v d) =
  match dict_get k d with
  | Some x => Some x
  | None => if String.eqb k k' then Some v else None
  end.
Proof.
  unfold dict_setdefault.
  destruct (dict_get k' d) as [x|] eqn:E.
  - destruct (dict_get k d) eqn:F; [reflexivity|].
    destruct (String.eqb_spec k k') as [->|_]; [congruence | reflexivity].
  - rewrite dict_get_set.
    destruct (String.eqb_spec k k') as [->|_].
    + now rewrite E.
    + destruct (dict_get k d); reflexivity.
Qed.

(** A loop of [setdefault] keeps, for each key, the first item that has
    it. *)
Lemma fold_setdefault A B (key : A -> string) (val : A -> B) k l :
  forall d,
    dict_get k (fold_left (fun r x => dict_setdefault (key x) (val x) r) l d) =
    match dict_get k d with
    | Some v => Some v
    | None => option_map val (find (fun x => String.eqb (key x) k) l)
    end.
Proof.
  induction l as [|x r IH]; intro d; simpl.
  - destruct (dict_get k d); reflexivity.
  - rewrite IH, dict_get_setdefault, (String.eqb_sym (key x) k).
    destruct (dict_get k d); [reflexivity|].
    destruct (String.eqb k (key x)); reflexivity.
Qed.

Lemma named_fields_unfold above e :
  named_fields above e =
  (if String.eqb (tag e) "field" then
     match get_attr "name" e with
     | Some n => if nonempty n then [(n, n :: above)] else []
     | None => []
     end
   else [])
  ++ flat_map (named_fields (subform_name e ++ above)) (children e).
Proof. destruct e; reflexivity. Qed.

(** Every item of [named_fields] has the name of its field first. *)
Lemma named_fields_head e : forall above fn,
    In fn (named_fields above e) -> exists up, snd fn = fst fn :: up.
Proof.
  induction e as [e IH] using element_ind. intros above fn Hin.
  rewrite named_fields_unfold in Hin. apply in_app_iff in Hin.
  destruct Hin as [Hin|Hin].
  - destruct (String.eqb (tag e) "field"); [|destruct Hin].
    destruct (get_attr "name" e) as [n|]; [|destruct Hin].
    destruct (nonempty n); [|destruct Hin].
    destruct Hin as [<-|[]]. now exists above.
  - apply in_flat_map in Hin. destruct Hin as [k [Hk Hfn]].
    rewrite Forall_forall in IH.
    exact (IH k Hk (subform_name e ++ above) fn Hfn).
Qed.

Lemma with_ancestors_unfold anc e :
  with_ancestors anc e =
  (anc, e) :: flat_map (with_ancestors (anc ++ [e])) (children e).
Proof. destruct e; reflexivity. Qed.

Lemma flat_map_comp A B C (f : B -> list C) (g : A -> list B) (l : list A) :
  flat_map f (flat_map g l) = flat_map (fun x => flat_map f (g x)) l.
Proof.
  induction l as [|x r IH]; simpl; [reflexivity|].
  now rewrite flat_map_app, IH.
Qed.

Lemma flat_map_same_on A B (f g : A -> list B) (l : list A) :
  (forall x, In x l -> f x = g x) -> flat_map f l = flat_map g l.
Proof.
  induction l as [|x r IH]; intro H; [reflexivity|].
  cbn [flat_map]. rewrite (H x) by now left.
  f_equal. apply IH. intros y Hy. apply H. now right.
Qed.

(** Going one element down puts its subform name in front of the names
    collected so far. *)
Lemma subforms_snoc anc e :
  rev (enclosing_subforms (anc ++ [e])) =
  subform_name e ++ rev (enclosing_subforms anc).
Proof.
  unfold enclosing_subforms. rewrite filter_app, flat_map_app, rev_app_distr.
  f_equal. unfold subform_name. cbn [filter].
  destruct (String.eqb (tag e) "subform"); [|reflexivity].
  cbn [flat_map]. rewrite app_nil_r.
  destruct (get_attr "name" e) as [n|]; [|reflexivity].
  destruct (nonempty n); reflexivity.
Qed.

Lemma named_fields_occurrences e : forall anc,
    named_fields (rev (enclosing_subforms anc)) e =
    flat_map field_item (with_ancestors anc e).
Proof.
  induction e as [e IH] using element_ind. intro anc.
  rewrite named_fields_unfold, with_ancestors_unfold.
  cbn [flat_map]. f_equal.
  rewrite flat_map_comp, <- subforms_snoc.
  apply flat_map_same_on. intros k Hk.
  rewrite Forall_forall in IH. exact (IH k Hk (anc ++ [e])).
Qed.

Lemma field_item_cases nm occ :
  (is_field_named nm (snd occ) = true
   /\ field_item occ = [(nm, nm :: rev (enclosing_subforms (fst occ)))])
  \/ (is_field_named nm (snd occ) = false
      /\ forall fn, In fn (field_item occ) -> String.eqb (fst fn) nm = false).
Proof.
  unfold is_field_named, field_item.
  destruct (String.eqb (tag (snd occ)) "field"); [|right; split; [reflexivity|]].
  - destruct (get_attr "name" (snd occ)) as [n|];
      [|right; split; [reflexivity | intros fn []]].
    destruct (String.eqb_spec n nm) as [->|Hne].
    + destruct (nonempty nm).
      * left. split; reflexivity.
      * right. split; [reflexivity | intros fn []].
    + right. split; [reflexivity|]. intros fn Hfn.
      destruct (nonempty n); [|destruct Hfn].
      destruct Hfn as [<-|[]]. now apply String.eqb_neq.
  - intros fn [].
Qed.

(** The first item with a name is the item of the first field that bears
    the name. *)
Lemma find_field_items nm l :
  find (fun fn => String.eqb (fst fn) nm) (flat_map field_item l) =
  option_map (fun occ => (nm, nm :: rev (enclosing_subforms (fst occ))))
    (find (fun occ => is_field_named nm (snd occ)) l).
Proof.
  induction l as [|occ r IH]; [reflexivity|].
  cbn [flat_map find].
  destruct (field_item_cases nm occ) as [[Hyes Hitem]|[Hno Hitems]].
  - rewrite Hyes, Hitem. cbn [app find fst]. now rewrite String.eqb_refl.
  - rewrite Hno.
    assert (Hskip : forall items rest : list (string * list string),
               (forall fn, In fn items -> String.eqb (fst fn) nm = false) ->
               find (fun fn => String.eqb (fst fn) nm) (items ++ rest)
               = find (fun fn => String.eqb (fst fn) nm) rest).
    { induction items as [|x xs IHx]; intros rest H; [reflexivity|].
      cbn [app find]. rewrite (H x) by now left.
      apply IHx. intros fn Hfn. apply H. now right. }
    rewrite (Hskip _ _ Hitems). exact IH.
Qed.

End SomPaths.

(** X8. The map of SOM paths gives every field name the path of the first
    [field] element of that name below the root in document order, and
    never a later one; the path is the names of the ancestors of that
    element whose tag is [subform] and whose name is not empty, outermost
    first, and then the name of the field, joined by dots.  A name that
    no field below the root bears has no path. *)
Theorem som_paths_keep_first_occurrence :
  forall (root : element) (nm : string),
    dict_get nm (get_som_paths_from_template (Some root)) =
    option_map
      (fun occ => join "." (enclosing_subforms (fst occ) ++ [nm]))
      (find (fun occ => is_field_named nm (snd occ)) (below_with_ancestors root)).
Proof.
  intros root nm.
  unfold get_som_paths_from_template.
  rewrite (fold_setdefault _ _ fst (fun fn => join "." (rev (snd fn)))).
  cbn [dict_get]. unfold below_with_ancestors.
  assert (Hroot : subform_name root = rev (enclosing_subforms ([] ++ [root]))).
  { rewrite subforms_snoc. cbn. now rewrite app_nil_r. }
  rewrite Hroot. cbn [app].
  rewrite (flat_map_same_on _ _ _
             (fun k => flat_map field_item (with_ancestors [root] k)));
    [|intros k _; apply named_fields_occurrences].
  rewrite <- flat_map_comp, find_field_items.
  destruct (find (fun occ => is_field_named nm (snd occ))
              (flat_map (with_ancestors [root]) (children root))) as [occ|];
    [|reflexivity].
  cbn [option_map snd rev]. now rewrite rev_involutive.
Qed.

(** ** Names of references *)

Section RefNames.

Lemma last_error_cons_nonempty A (x : A) l :
  l <> [] -> last_error (x :: l) = last_error l.
Proof.
  intro H. change (x :: l) with ([x] ++ l). rewrite last_error_app.
  destruct (last_error l) eqn:E; [reflexivity|].
  unfold last_error in E. destruct l as [|y r]; [congruence|].
  simpl in E. destruct (rev r); discriminate.
Qed.

(** The parts of a reference with the preamble [$.] are [$] and the parts
    of what follows. *)
Lemma path_parts_preamble ref :
  path_parts ref =
  match strip ref with
  | String "$" (String "." r) => "$" :: filter nonempty (re_split r)
  | s => filter nonempty (re_split s)
  end.
Proof.
  unfold path_parts.
  destruct (strip ref) as [|c s]; [reflexivity|].
  destruct (Ascii.eqb_spec c "$") as [->|Hc].
  - destruct s as [|d s']; [reflexivity|].
    destruct (Ascii.eqb_spec d ".") as [->|Hd]; [|].
    + cbn [re_split is_sep Ascii.eqb orb]. simpl.
      destruct (re_split_cons s') as [p [ps E]]. rewrite E. reflexivity.
    + destruct d as [[] [] [] [] [] [] [] []];
        first [reflexivity | congruence].
  - destruct c as [[] [] [] [] [] [] [] []];
      first [reflexivity | congruence].
Qed.

Lemma last_parts_preamble ref :
  filter nonempty (re_split (drop_preamble (strip ref))) <> [] ->
  last_error (path_parts ref) =
  last_error (filter nonempty (re_split (drop_preamble (strip ref)))).
Proof.
  rewrite path_parts_preamble. unfold drop_preamble.
  destruct (strip ref) as [|c s]; [reflexivity|].
  destruct (Ascii.eqb_spec c "$") as [->|Hc].
  - destruct s as [|d s']; [reflexivity|].
    destruct (Ascii.eqb_spec d ".") as [->|Hd].
    + intro H. now apply last_error_cons_nonempty.
    + destruct d as [[] [] [] [] [] [] [] []];
        first [reflexivity | congruence].
  - destruct c as [[] [] [] [] [] [] [] []];
      first [reflexivity | congruence].
Qed.

End RefNames.

(** X9. For a reference that has a part after the preamble [$.], the name
    [_sanitize_ref_name] gives is the last name of the chain
    [_set_value_by_ref] walks for the same reference, index removed: the
    key listed for a binding names the element its value is written to.
    A name that would be empty is not given. *)
Theorem sanitized_name_is_last_path_name :
  forall ref : string,
    filter nonempty (re_split (drop_preamble (strip ref))) <> [] ->
    _sanitize_ref_name ref =
    match last_error (path_names ref) with
    | Some n => if nonempty n then Some n else None
    | None => None
    end.
Proof.
  intros ref Hparts.
  unfold _sanitize_ref_name, path_names.
  rewrite last_error_map, (last_parts_preamble ref Hparts).
  assert (Href : nonempty ref = true).
  { destruct ref; [|reflexivity]. exfalso. apply Hparts. reflexivity. }
  rewrite Href. cbn [negb].
  destruct (last_error (filter nonempty (re_split (drop_preamble (strip ref)))))
    as [p|] eqn:E.
  - reflexivity.
  - exfalso. unfold last_error in E.
    destruct (filter nonempty (re_split (drop_preamble (strip ref))))
      as [|y r]; [congruence|].
    simpl in E. destruct (rev r); discriminate.
Qed.

Lemma sanitized_name_is_last_path_name_witness :
  _sanitize_ref_name " $.data.contact[0].email[1] " = Some "email"
  /\ last_error (path_names " $.data.contact[0].email[1] ") = Some "email".
Proof.
  split; [|reflexivity].
  rewrite sanitized_name_is_last_path_name; [reflexivity | discriminate].
Defined.

(** ** Bound names and field keys *)

Section FieldKeys.

Lemma self_and_descendants_unfold e :
  self_and_descendants e = e :: flat_map self_and_descendants (children e).
Proof. destruct e; reflexivity. Qed.

Lemma descendants_trans a : forall b c,
    In b (self_and_descendants a) -> In c (descendants b) ->
    In c (descendants a).
Proof.
  induction a as [a IH] using element_ind. intros b c Hb Hc.
  rewrite self_and_descendants_unfold in Hb. destruct Hb as [<-|Hb]; [exact Hc|].
  apply in_flat_map in Hb. destruct Hb as [k [Hk Hb]].
  unfold descendants. apply in_flat_map. exists k. split; [exact Hk|].
  rewrite self_and_descendants_unfold. right.
  rewrite Forall_forall in IH. exact (IH k Hk b c Hb Hc).
Qed.

Lemma descendants_below a b c :
  In b (descendants a) -> In c (descendants b) -> In c (descendants a).
Proof.
  intros Hb Hc. unfold descendants in Hb. apply in_flat_map in Hb.
  destruct Hb as [k [Hk Hb]].
  unfold descendants. apply in_flat_map. exists k. split; [exact Hk|].
  rewrite self_and_descendants_unfold. right.
  fold (descendants k). now apply descendants_trans with b.
Qed.

Lemma binding_of_In el nm ref :
  In (nm, ref) (binding_of el) ->
  get_attr "name" el = Some nm /\ nonempty nm = true /\ nonempty ref = true
  /\ exists bnd, In bnd (findall_local "bind" el)
                 /\ get_attr "ref" bnd = Some ref.
Proof.
  unfold binding_of.
  destruct (get_attr "name" el) as [n|]; [|intros []].
  unfold find_local.
  destruct (findall_local "bind" el) as [|bnd r] eqn:E; [intros []|].
  simpl hd_error. cbv iota.
  destruct (get_attr "ref" bnd) as [rf|] eqn:R; [|intros []].
  destruct (nonempty n) eqn:En; destruct (nonempty rf) eqn:Er;
    cbn [andb]; intro H; try (now destruct H).
  destruct H as [[= -> ->]|[]]. repeat split; try assumption.
  exists bnd. split; [now left | exact R].
Qed.

Lemma declared_binding_sources root nm ref :
  In (nm, ref) (declared_bindings root) ->
  In nm (element_names "field" root ++ element_names "exclGroup" root)
  /\ exists bnd, In bnd (findall_local "bind" root)
                 /\ get_attr "ref" bnd = Some ref /\ nonempty ref = true.
Proof.
  unfold declared_bindings. intro H. apply in_app_iff in H.
  assert (Hone : forall local,
             In (nm, ref) (flat_map binding_of (findall_local local root)) ->
             In nm (element_names local root)
             /\ exists bnd, In bnd (findall_local "bind" root)
                            /\ get_attr "ref" bnd = Some ref
                            /\ nonempty ref = true).
  { intros local Hin. apply in_flat_map in Hin. destruct Hin as [el [Hel Hb]].
    apply binding_of_In in Hb.
    destruct Hb as [Hname [Hnm [Href [bnd [Hbnd Hr]]]]]. split.
    - unfold element_names. apply in_flat_map. exists el.
      split; [exact Hel|]. rewrite Hname, Hnm. now left.
    - exists bnd. split; [|now split].
      unfold findall_local in *. apply filter_In in Hel, Hbnd.
      apply filter_In. split; [|tauto].
      now apply descendants_below with el. }
  destruct H as [H|H]; apply Hone in H; destruct H as [Hn Hb];
    (split; [apply in_app_iff; tauto | exact Hb]).
Qed.

Lemma last_error_Some_In A (l : list A) x : last_error l = Some x -> In x l.
Proof.
  unfold last_error. intro H. apply in_rev.
  destruct (rev l) as [|y r]; [discriminate|]. injection H as ->. now left.
Qed.

End FieldKeys.

(** X10. Every name that has a binding in the bindings map is among the
    field names extracted from the same template, and so is the sanitized
    name of the reference it is bound to, when there is one. *)
Theorem bound_names_are_field_names :
  forall (root : element) (nm ref : string),
    dict_get nm (get_bindings_from_template (Some root)) = Some ref ->
    In nm (_extract_field_names_from_template_xml (Some root))
    /\ (forall key, _sanitize_ref_name ref = Some key ->
                    In key (_extract_field_names_from_template_xml (Some root))).
Proof.
  intros root nm ref Hget.
  assert (Hlast : last_error (filter (binds nm) (declared_bindings root))
                  = Some (nm, ref)).
  { unfold get_bindings_from_template in Hget.
    rewrite fold_record_binding in Hget.
    unfold declared_bindings. rewrite filter_app, last_error_app.
    destruct (last_error
                (filter (binds nm)
                   (flat_map binding_of (findall_local "exclGroup" root))))
      as [b|] eqn:E.
    - injection Hget as <-. apply last_error_Some_In, filter_In in E.
      destruct E as [_ E]. unfold binds in E. apply String.eqb_eq in E.
      destruct b as [n r]. simpl in *. now subst.
    - rewrite fold_record_binding in Hget.
      destruct (last_error
                  (filter (binds nm)
                     (flat_map binding_of (findall_local "field" root))))
        as [b|] eqn:F; [|discriminate].
      injection Hget as <-. apply last_error_Some_In, filter_In in F.
      destruct F as [_ F]. unfold binds in F. apply String.eqb_eq in F.
      destruct b as [n r]. simpl in *. now subst. }
  apply last_error_Some_In, filter_In in Hlast. destruct Hlast as [Hin _].
  apply declared_binding_sources in Hin.
  destruct Hin as [Hnm [bnd [Hbnd [Hr Hne]]]].
  unfold _extract_field_names_from_template_xml. split.
  - rewrite app_assoc. apply in_app_iff. now left.
  - intros key Hkey. apply in_app_iff. right. apply in_app_iff. right.
    unfold ref_names. apply in_flat_map. exists bnd. split; [exact Hbnd|].
    rewrite Hr, Hne, Hkey. now left.
Qed.

Lemma bound_names_are_field_names_witness :
  In "Email"
    (_extract_field_names_from_template_xml
       (Some (template [subform "s" [bound_field "Email" "$.data.mail[0]"]])))
  /\ In "mail"
       (_extract_field_names_from_template_xml
          (Some (template [subform "s" [bound_field "Email" "$.data.mail[0]"]]))).
Proof.
  destruct (bound_names_are_field_names
              (template [subform "s" [bound_field "Email" "$.data.mail[0]"]])
              "Email" "$.data.mail[0]" eq_refl) as [H1 H2].
  split; [exact H1|]. apply H2. reflexivity.
Defined.

(** ** Packets *)

Section Packets.

Lemma lstrip_slash_clean s : starts_with_slash (lstrip_slash s) = false.
Proof.
  induction s as [|c r IH]; [reflexivity|].
  destruct (Ascii.eqb_spec c "/") as [->|Hc]; [exact IH|].
  destruct c as [[] [] [] [] [] [] [] []]; first [reflexivity | congruence].
Qed.

Lemma clean_keys_set nm data packets :
  clean_keys packets -> clean_keys (dict_set (lstrip_slash nm) data packets).
Proof.
  intros [Hnd Hall]. unfold clean_keys. rewrite dict_keys_set. split.
  - now apply NoDup_add_new.
  - unfold add_new. destruct (mem _ _); [exact Hall|].
    apply Forall_app. split; [exact Hall|].
    constructor; [apply lstrip_slash_clean | constructor].
Qed.

Lemma read_pairs_keys_both items :
  (forall packets, clean_keys packets -> clean_keys (read_pairs items packets))
  /\ (forall a packets,
        clean_keys packets -> clean_keys (read_pairs (a :: items) packets)).
Proof.
  induction items as [|b rest [IH1 IH2]].
  - split; intros; assumption.
  - split.
    + intros packets H. now apply IH2.
    + intros a packets H. simpl. apply IH1. now apply clean_keys_set.
Qed.

Lemma read_pairs_keys items packets :
  clean_keys packets -> clean_keys (read_pairs items packets).
Proof. apply (proj1 (read_pairs_keys_both items)). Qed.

Lemma choose_packet_key packets preferred nm data :
  choose_packet packets preferred = Some (nm, data) ->
  dict_get nm packets = Some data.
Proof.
  unfold choose_packet.
  destruct preferred as [p|].
  - destruct (nonempty p).
    + destruct (dict_get p packets) as [b|] eqn:E; simpl.
      * now intros [= <- <-].
      * destruct (dict_get "template" packets) as [b|] eqn:Et;
          [now intros [= <- <-]|].
        destruct (dict_get "datasets" packets) as [b|] eqn:Ed;
          [now intros [= <- <-]|].
        destruct packets as [|[k v] r]; [discriminate|].
        destruct (dict_get k ((k, v) :: r)) as [b|] eqn:Ek; [|discriminate].
        now intros [= <- <-].
    + destruct (dict_get "template" packets) as [b|] eqn:Et;
        [now intros [= <- <-]|].
      destruct (dict_get "datasets" packets) as [b|] eqn:Ed;
        [now intros [= <- <-]|].
      destruct packets as [|[k v] r]; [discriminate|].
      destruct (dict_get k ((k, v) :: r)) as [b|] eqn:Ek; [|discriminate].
      now intros [= <- <-].
  - destruct (dict_get "template" packets) as [b|] eqn:Et;
      [now intros [= <- <-]|].
    destruct (dict_get "datasets" packets) as [b|] eqn:Ed;
      [now intros [= <- <-]|].
    destruct packets as [|[k v] r]; [discriminate|].
    destruct (dict_get k ((k, v) :: r)) as [b|] eqn:Ek; [|discriminate].
    now intros [= <- <-].
Qed.

Lemma choose_packet_some packets preferred :
  packets <> [] -> exists chosen, choose_packet packets preferred = Some chosen.
Proof.
  intro Hne. unfold choose_packet.
  destruct (match preferred with
            | Some p =>
                if nonempty p then option_map (pair p) (dict_get p packets)
                else None
            | None => None
            end) as [c|]; [eauto|].
  destruct (dict_get "template" packets); [eauto|].
  destruct (dict_get "datasets" packets); [eauto|].
  destruct packets as [|[k v] r]; [congruence|].
  simpl. rewrite String.eqb_refl. simpl. eauto.
Qed.

End Packets.

(** X11. The packets read from a document are never an empty map; their
    names are distinct and none starts with a slash; and reading succeeds
    only on a document that form-type detection calls ["XFA"]. *)
Theorem packets_read_are_named :
  forall (pdf_path : string) (f : file) (packets : dict string),
    read_xfa_packets pdf_path f = Ok packets ->
    packets <> []
    /\ NoDup (dict_keys packets)
    /\ Forall (fun k => starts_with_slash k = false) (dict_keys packets)
    /\ detect_form_type f = "XFA".
Proof.
  intros pdf_path f packets H.
  destruct f as [| |[root|]]; simpl in H; try discriminate.
  destruct (AcroForm root) as [acro|] eqn:Ea; [|discriminate].
  destruct (XFA acro) as [xfa|] eqn:Ex; [|discriminate].
  assert (Hkeys : NoDup (dict_keys packets)
                  /\ Forall (fun k => starts_with_slash k = false)
                       (dict_keys packets)
                  /\ packets <> []).
  { destruct xfa as [items|obj].
    - destruct (read_pairs items []) as [|kv r] eqn:E; [discriminate|].
      injection H as <-. rewrite <- E.
      destruct (read_pairs_keys items [] (conj (NoDup_nil _) (Forall_nil _)))
        as [Hnd Hall].
      repeat split; try assumption. rewrite E. discriminate.
    - simpl in H. injection H as <-. repeat split.
      + repeat constructor. intros [].
      + repeat constructor.
      + discriminate. }
  destruct Hkeys as [Hnd [Hall Hne]].
  repeat split; try assumption.
  simpl. now rewrite Ea, Ex.
Qed.

Lemma packets_read_are_named_witness :
  detect_form_type
    (Document (Some (mkCatalog (Some (mkAcro
       (Some (XfaArray [packet_name "/template"; packet_stream "<t/>";
                        packet_name "/datasets"; packet_stream "<d/>";
                        packet_name "/odd"])) []))))) = "XFA".
Proof.
  apply (packets_read_are_named "xfa.pdf" _
           [("template", "<t/>"); ("datasets", "<d/>")]).
  reflexivity.
Defined.

(** X12. On the packets of a document that was read, choosing a packet
    never fails, and the bytes returned are those the map holds under the
    name returned.  A preferred name that is a packet is chosen; otherwise
    [template] when it is a packet; otherwise [datasets] when it is one. *)
Theorem choose_packet_after_read :
  forall (pdf_path : string) (f : file) (packets : dict string)
         (preferred : option string),
    read_xfa_packets pdf_path f = Ok packets ->
    exists nm data,
      choose_packet packets preferred = Some (nm, data)
      /\ dict_get nm packets = Some data
      /\ (forall p, preferred = Some p -> p <> "" ->
                    dict_get p packets <> None -> nm = p)
      /\ ((preferred = None
           \/ (exists p, preferred = Some p /\ dict_get p packets = None)) ->
          (dict_get "template" packets <> None -> nm = "template")
          /\ (dict_get "template" packets = None ->
              dict_get "datasets" packets <> None -> nm = "datasets")).
Proof.
  intros pdf_path f packets preferred Hread.
  destruct (packets_read_are_named _ _ _ Hread) as [Hne _].
  destruct (choose_packet_some packets preferred Hne) as [[nm data] Hc].
  exists nm, data. split; [exact Hc|].
  split; [now apply choose_packet_key with preferred|].
  unfold choose_packet in Hc. split.
  - intros p -> Hp Hin.
    assert (Ep : nonempty p = true) by (destruct p; [congruence | reflexivity]).
    rewrite Ep in Hc.
    destruct (dict_get p packets); [|congruence].
    simpl in Hc. now injection Hc as <- _.
  - intros Hpref.
    assert (Hby : match preferred with
                  | Some p =>
                      if nonempty p then option_map (pair p) (dict_get p packets)
                      else None
                  | None => None
                  end = None).
    { destruct Hpref as [->|[p [-> Hp]]]; [reflexivity|].
      rewrite Hp. destruct (nonempty p); reflexivity. }
    rewrite Hby in Hc. split.
    + intro Ht. destruct (dict_get "template" packets); [|congruence].
      now injection Hc as <- _.
    + intros Ht Hd. rewrite Ht in Hc.
      destruct (dict_get "datasets" packets); [|congruence].
      now injection Hc as <- _.
Qed.

Lemma choose_packet_after_read_witness :
  exists nm data,
    choose_packet [("config", "<c/>"); ("datasets", "<d/>")] (Some "template")
    = Some (nm, data)
    /\ nm = "datasets".
Proof.
  destruct (choose_packet_after_read "xfa.pdf"
              (Document (Some (mkCatalog (Some (mkAcro
                 (Some (XfaArray [packet_name "/config"; packet_stream "<c/>";
                                  packet_name "/datasets"; packet_stream "<d/>"]))
                 [])))))
              [("config", "<c/>"); ("datasets", "<d/>")] (Some "template")
              eq_refl) as [nm [data [Hc [_ [_ Hrest]]]]].
  exists nm, data. split; [exact Hc|].
  apply Hrest.
  - right. exists "template". split; reflexivity.
  - reflexivity.
  - discriminate.
Defined.

(** X13. The exit status of the form-type tool is 0 exactly when the file
    exists, can be opened and has a catalog: a document without any form
    gives 0, a missing file, a read failure and a missing catalog give 1. *)
Theorem detect_exit_status :
  forall f : file,
    (main_status f = 0%Z \/ main_status f = 1%Z)
    /\ (main_status f = 0%Z <->
        classify f = NoForm \/ classify f = AcroFormOnly \/ classify f = HasXfa).
Proof.
  intro f. unfold main_status.
  destruct f as [| |[root|]]; simpl.
  - split; [now right|]. split; [discriminate|].
    intros [H|[H|H]]; discriminate.
  - split; [now right|]. split; [discriminate|].
    intros [H|[H|H]]; discriminate.
  - destruct (AcroForm root) as [acro|]; [destruct (XFA acro)|]; simpl;
      (split; [now left|]); (split; [intros _|reflexivity]); tauto.
  - split; [now right|]. split; [discriminate|].
    intros [H|[H|H]]; discriminate.
Qed.

Lemma detect_exit_status_witness :
  main_status (Document (Some (mkCatalog None))) = 0%Z
  /\ main_status (Document None) = 1%Z.
Proof.
  split.
  - apply (proj2 (detect_exit_status (Document (Some (mkCatalog None))))).
    left. reflexivity.
  - destruct (proj1 (detect_exit_status (Document None))) as [H|H];
      [discriminate H | exact H].
Defined.

(** ** Writing several references *)

Section Rewriting.
Variable json_dumps : value -> string.
Variable valid_tag : string -> bool.
Variable valid_text : string -> bool.

Lemma set_chain_valid names : forall txt cur r,
    set_chain valid_tag valid_text names txt cur = Some r ->
    Forall (fun n => valid_tag n = true) names /\ valid_text txt = true.
Proof.
  induction names as [|n rest IH]; intros txt cur r H.
  - simpl in H. destruct (valid_text txt); [|discriminate].
    split; [constructor | reflexivity].
  - simpl in H. destruct (valid_tag n) eqn:En; [|discriminate].
    destruct (find_child n cur) as [i|].
    + destruct (nth_error (children cur) i) as [child|]; [|discriminate].
      destruct (set_chain valid_tag valid_text rest txt child) as [c|] eqn:E;
        [|discriminate].
      destruct (IH txt child c E) as [Hrest Htext].
      split; [now constructor | exact Htext].
    + destruct (set_chain valid_tag valid_text rest txt (new_element n))
        as [c|] eqn:E; [|discriminate].
      destruct (IH txt (new_element n) c E) as [Hrest Htext].
      split; [now constructor | exact Htext].
Qed.

Lemma descend_missing names : forall cur e,
    descend names cur = Some e -> missing names cur = 0.
Proof.
  induction names as [|n rest IH]; intros cur e H; [reflexivity|].
  simpl in *. destruct (find_child n cur) as [i|]; [|discriminate].
  destruct (nth_error (children cur) i) as [child|]; [|discriminate].
  now apply IH with e.
Qed.

Lemma find_index_app_some A (p : A -> bool) l l' i :
  find_index p l = Some i -> find_index p (l ++ l') = Some i.
Proof.
  revert i. induction l as [|x r IH]; intros i H; simpl in *; [discriminate|].
  destruct (p x); [exact H|].
  destruct (find_index p r) as [j|]; [|discriminate].
  now rewrite (IH j eq_refl).
Qed.

Lemma find_child_bound n cur i :
  find_child n cur = Some i -> i < length (children cur).
Proof.
  intro H. destruct (find_child_nth n cur i H) as [c Hc].
  apply nth_error_Some. congruence.
Qed.

Lemma find_child_app n cur child' i :
  find_child n cur = Some i ->
  attrib child' = [] ->
  find_child n (set_children cur (children cur ++ [child'])) = Some i.
Proof.
  unfold find_child. simpl. intros H Hattr.
  destruct (find_index (has_name_attr n) (children cur)) as [j|] eqn:E.
  - injection H as <-. now rewrite (find_index_app_some _ _ _ _ _ E).
  - rewrite (find_index_snoc _ _ _ _ E).
    unfold has_name_attr at 1, get_attr. rewrite Hattr. simpl.
    now apply find_index_app_some.
Qed.

Lemma nth_error_replace_other A (l : list A) : forall i j y,
    i <> j -> nth_error (replace_nth i y l) j = nth_error l j.
Proof.
  induction l as [|z r IH]; intros [|i] [|j] y H; simpl; try reflexivity;
    try congruence.
  apply IH. congruence.
Qed.

(** Descending reads the children only. *)
Lemma descend_children names a b :
  names <> [] -> children a = children b ->
  descend names a = descend names b.
Proof.
  destruct names as [|n rest]; [congruence|]. intros _ H.
  simpl. unfold find_child. now rewrite H.
Qed.

(** An element that a chain of names reached before a write is reached by
    the same chain after it, with its tag, namespace and attributes. *)
Lemma set_chain_keeps names : forall txt cur r,
    set_chain valid_tag valid_text names txt cur = Some r ->
    forall names' e,
      descend names' cur = Some e ->
      exists e', descend names' r = Some e'
                 /\ ns e' = ns e /\ tag e' = tag e /\ attrib e' = attrib e.
Proof.
  induction names as [|n rest IH]; intros txt cur r Hset names' e Hd.
  - simpl in Hset. destruct (valid_text txt); [|discriminate].
    injection Hset as <-.
    destruct names' as [|n' rest'].
    + simpl in Hd. injection Hd as <-. eexists. split; [reflexivity|]. auto.
    + exists e. split; [|auto].
      rewrite <- Hd. now apply descend_children.
  - destruct (set_chain_shape _ _ _ _ _ _ Hset) as [Hns [Htag Hattr]].
    destruct names' as [|n' rest'].
    { simpl in Hd. injection Hd as <-. exists r. split; [reflexivity|]. auto. }
    simpl in Hset. destruct (valid_tag n); [|discriminate].
    simpl in Hd.
    destruct (find_child n' cur) as [j|] eqn:Fj; [|discriminate].
    destruct (nth_error (children cur) j) as [cj|] eqn:Nj; [|discriminate].
    destruct (find_child n cur) as [i|] eqn:Fi.
    + destruct (nth_error (children cur) i) as [ci|] eqn:Ni; [|discriminate].
      destruct (set_chain valid_tag valid_text rest txt ci) as [ci'|] eqn:Eci;
        [|discriminate].
      injection Hset as <-.
      destruct (set_chain_shape _ _ _ _ _ _ Eci) as [Hns' [Htag' Hattr']].
      simpl.
      rewrite (find_child_replace n' cur i ci ci' Ni Hns' Htag' Hattr'), Fj.
      simpl. destruct (Nat.eq_dec i j) as [->|Hij].
      * rewrite (nth_error_replace _ _ j ci ci' Ni).
        assert (cj = ci) by congruence. subst cj.
        exact (IH txt ci ci' Eci rest' e Hd).
      * rewrite (nth_error_replace_other _ _ i j ci' Hij), Nj.
        exists e. auto.
    + destruct (set_chain valid_tag valid_text rest txt (new_element n)) as [c'|] eqn:Ec;
        [|discriminate].
      injection Hset as <-.
      destruct (set_chain_shape _ _ _ _ _ _ Ec) as [_ [_ Hattr']].
      simpl. rewrite (find_child_app n' cur c' j Fj Hattr').
      simpl. rewrite nth_error_app1 by (now apply find_child_bound with n').
      rewrite Nj. exists e. auto.
Qed.

Lemma set_value_keeps root root' ref v names e :
  _set_value_by_ref json_dumps valid_tag valid_text root ref v = Some root' ->
  descend names root = Some e ->
  exists e',
    descend names root' = Some e'
    /\ ns e' = ns e /\ tag e' = tag e /\ attrib e' = attrib e.
Proof.
  intros Hset Hd. unfold _set_value_by_ref in Hset.
  destruct (path_parts ref) as [|p ps].
  - injection Hset as <-. exists e. auto.
  - now apply (set_chain_keeps _ _ _ _ Hset names e).
Qed.

End Rewriting.

(** X14. Writing a second value through a reference that was written
    before creates no element: when both calls return, the tree has the
    size the first call left, and the element the reference leads to
    holds the text of the second value. *)
Theorem second_write_overwrites :
  forall (json_dumps : value -> string) (valid_tag valid_text : string -> bool)
         (root root1 root2 : element) (ref : string) (v1 v2 : value),
    path_parts ref <> [] ->
    _set_value_by_ref json_dumps valid_tag valid_text root ref v1 = Some root1 ->
    _set_value_by_ref json_dumps valid_tag valid_text root1 ref v2 = Some root2 ->
    size root2 = size root1
    /\ exists leaf,
         descend (path_names ref) root2 = Some leaf
         /\ text leaf = Some (value_text json_dumps v2).
Proof.
  intros json_dumps valid_tag valid_text root root1 root2 ref v1 v2 Hparts H1 H2.
  rewrite set_value_by_ref_names in H1, H2 by exact Hparts.
  destruct (set_chain_valid _ _ _ _ _ _ H1) as [Hvalid Htext1].
  destruct (set_chain_valid _ _ _ _ _ _ H2) as [_ Htext2].
  destruct (set_chain_ok valid_tag valid_text _ (value_text json_dumps v1) root
              Hvalid Htext1)
    as [r1 [leaf1 [Hr1 [Hd1 _]]]].
  assert (r1 = root1) by congruence. subst r1.
  destruct (set_chain_ok valid_tag valid_text _ (value_text json_dumps v2) root1
              Hvalid Htext2)
    as [r2 [leaf2 [Hr2 [Hd2 [Ht2 Hs2]]]]].
  assert (r2 = root2) by congruence. subst r2.
  split; [|now exists leaf2].
  rewrite Hs2, (descend_missing _ _ _ Hd1). lia.
Qed.

Lemma second_write_overwrites_witness :
  size (mkElem None "data" [] None
          [mkElem None "a" [] None [mkElem None "b" [] (Some "new") []]]) = 3
  /\ exists leaf,
       descend ["a"; "b"]
         (mkElem None "data" [] None
            [mkElem None "a" [] None [mkElem None "b" [] (Some "new") []]])
       = Some leaf
       /\ text leaf = Some "new".
Proof.
  exact (second_write_overwrites (fun _ => "[]") (fun n => nonempty n) (fun _ => true)
           (mkElem None "data" [] None [])
           (mkElem None "data" [] None
              [mkElem None "a" [] None [mkElem None "b" [] (Some "old") []]])
           (mkElem None "data" [] None
              [mkElem None "a" [] None [mkElem None "b" [] (Some "new") []]])
           "a.b" (VStr "old") (VStr "new")
           ltac:(discriminate) eq_refl eq_refl).
Defined.

(** X15. Writing a reference never removes or hides what another chain of
    names reached: an element that a chain led to before the call is led
    to by the same chain after it, with the same tag, namespace and
    attributes. *)
Theorem write_keeps_other_elements :
  forall (json_dumps : value -> string) (valid_tag valid_text : string -> bool)
         (root root' : element) (ref : string) (v : value)
         (names : list string) (e : element),
    _set_value_by_ref json_dumps valid_tag valid_text root ref v = Some root' ->
    descend names root = Some e ->
    exists e',
      descend names root' = Some e'
      /\ ns e' = ns e /\ tag e' = tag e /\ attrib e' = attrib e.
Proof.
  intros json_dumps valid_tag valid_text root root' ref v names e Hset Hd.
  now apply (set_value_keeps json_dumps valid_tag valid_text root root' ref v).
Qed.

Lemma write_keeps_other_elements_witness :
  exists e',
    descend ["data"; "name"]
      (mkElem None "root" [] None
         [mkElem None "data" [] None
            [mkElem None "name" [("id", "1")] (Some "Ann") [];
             mkElem None "email" [] (Some "a@b.com") []]])
    = Some e'
    /\ ns e' = None /\ tag e' = "name" /\ attrib e' = [("id", "1")].
Proof.
  destruct (write_keeps_other_elements (fun _ => "[]") (fun n => nonempty n) (fun _ => true)
              (mkElem None "root" [] None
                 [mkElem None "data" [] None
                    [mkElem None "name" [("id", "1")] (Some "Ann") []]])
              (mkElem None "root" [] None
                 [mkElem None "data" [] None
                    [mkElem None "name" [("id", "1")] (Some "Ann") [];
                     mkElem None "email" [] (Some "a@b.com") []]])
              "data.email" (VStr "a@b.com") ["data"; "name"]
              (mkElem None "name" [("id", "1")] (Some "Ann") [])
              eq_refl eq_refl) as [e' H].
  exists e'. exact H.
Defined.

(** ** The keys of a document *)

Section SortedKeys.

Lemma insert_sorted_In x l y : In y (insert_sorted x l) <-> y = x \/ In y l.
Proof.
  induction l as [|h t IH]; simpl.
  - intuition congruence.
  - destruct (String.leb x h); simpl; [intuition congruence|].
    rewrite IH. intuition congruence.
Qed.

Lemma sorted_In l y : In y (sorted l) <-> In y l.
Proof.
  induction l as [|x r IH]; simpl; [tauto|].
  rewrite insert_sorted_In, IH. intuition congruence.
Qed.

Lemma insert_sorted_NoDup x l :
  ~ In x l -> NoDup l -> NoDup (insert_sorted x l).
Proof.
  induction l as [|h t IH]; simpl; intros Hx Hnd.
  - constructor; [tauto | constructor].
  - destruct (String.leb x h).
    + constructor; [simpl; tauto | exact Hnd].
    + inversion Hnd as [|? ? Hh Ht]; subst. constructor.
      * rewrite insert_sorted_In. intuition congruence.
      * apply IH; [tauto | exact Ht].
Qed.

Lemma sorted_NoDup l : NoDup l -> NoDup (sorted l).
Proof.
  induction 1 as [|x r Hx Hr IH]; simpl; [constructor|].
  apply insert_sorted_NoDup; [|exact IH]. now rewrite sorted_In.
Qed.

Lemma insert_sorted_Sorted x l :
  Sorted ascending l -> Sorted ascending (insert_sorted x l).
Proof.
  induction 1 as [|h t Ht IH Hhd]; simpl.
  - repeat constructor.
  - destruct (String.leb x h) eqn:E.
    + constructor; [now constructor|]. now constructor.
    + constructor; [exact IH|].
      assert (Hhx : ascending h x).
      { destruct (String.leb_total x h) as [H|H]; [congruence | exact H]. }
      destruct t as [|h' t']; simpl.
      * now constructor.
      * destruct (String.leb x h'); constructor; [exact Hhx|].
        now inversion Hhd.
Qed.

Lemma sorted_Sorted l : Sorted ascending (sorted l).
Proof.
  induction l as [|x r IH]; simpl; [constructor|].
  now apply insert_sorted_Sorted.
Qed.

End SortedKeys.

(** X16. Listing the field keys of a document raises whatever reading its
    XFA packets raises, so a document with an AcroForm and no XFA gets the
    error of the missing [/XFA] and its fields are not walked.  When the
    packets are read, the keys returned are the names collected, each
    once, in ascending order. *)
Theorem field_keys_sorted_or_raised :
  forall (parse : string -> option element) (pdf_path : string) (f : file),
    (forall e,
        read_xfa_packets pdf_path f = Raise e ->
        extract_field_keys parse pdf_path f = Raise e)
    /\ (classify f = AcroFormOnly ->
        extract_field_keys parse pdf_path f =
        Raise (ValueError "PDF nie zawiera /XFA – brak pakietów XFA."))
    /\ (forall packets,
          read_xfa_packets pdf_path f = Ok packets ->
          exists keys,
            extract_field_keys parse pdf_path f = Ok keys
            /\ Sorted ascending keys
            /\ NoDup keys
            /\ forall x, In x keys <-> In x (collected_names parse f packets)).
Proof.
  intros parse pdf_path f. split; [|split].
  - intros e H. unfold extract_field_keys. now rewrite H.
  - intro Hc. unfold extract_field_keys.
    destruct f as [| |[root|]]; simpl in *; try discriminate.
    destruct (AcroForm root) as [acro|]; [|discriminate].
    destruct (XFA acro); [discriminate | reflexivity].
  - intros packets H. unfold extract_field_keys. rewrite H. simpl.
    eexists. split; [reflexivity|]. split; [apply sorted_Sorted|].
    split; [apply sorted_NoDup, NoDup_nodup|].
    intro x. now rewrite sorted_In, nodup_In.
Qed.

Lemma field_keys_sorted_or_raised_witness :
  extract_field_keys (fun _ => None) "xfa.pdf"
    (Document (Some (mkCatalog (Some (mkAcro None [text_field "a"])))))
  = Raise (ValueError "PDF nie zawiera /XFA – brak pakietów XFA.")
  /\ exists keys,
       extract_field_keys (fun _ => None) "xfa.pdf"
         (Document (Some (mkCatalog (Some (mkAcro
            (Some (XfaArray [packet_name "/config"; packet_stream "<c/>"]))
            [text_field "b"; text_field "a"; text_field "b"])))))
       = Ok keys
       /\ Sorted ascending keys.
Proof.
  split.
  - apply (proj1 (proj2 (field_keys_sorted_or_raised (fun _ => None) "xfa.pdf" _))).
    reflexivity.
  - destruct (proj2 (proj2 (field_keys_sorted_or_raised (fun _ => None) "xfa.pdf"
               (Document (Some (mkCatalog (Some (mkAcro
                  (Some (XfaArray [packet_name "/config"; packet_stream "<c/>"]))
                  [text_field "b"; text_field "a"; text_field "b"])))))))
               [("config", "<c/>")] eq_refl) as [keys [Hk [Hs _]]].
    exists keys. split; assumption.
Defined.

(** ** Filling the datasets *)

Section FillFacts.
Variable json_dumps : value -> string.
Variable valid_tag : string -> bool.
Variable valid_text : string -> bool.

Lemma set_value_grows root root' ref v :
  _set_value_by_ref json_dumps valid_tag valid_text root ref v = Some root' ->
  size root <= size root'
  /\ (path_parts ref <> [] ->
      exists leaf, descend (path_names ref) root' = Some leaf).
Proof.
  intro H. destruct (path_parts ref) as [|p ps] eqn:E.
  - unfold _set_value_by_ref in H. rewrite E in H. injection H as <-.
    split; [lia | congruence].
  - assert (Hparts : path_parts ref <> []) by (rewrite E; discriminate).
    rewrite set_value_by_ref_names in H by exact Hparts.
    destruct (set_chain_valid _ _ _ _ _ _ H) as [Hvalid Htext].
    destruct (set_chain_ok valid_tag valid_text _ (value_text json_dumps v) root
                Hvalid Htext)
      as [r [leaf [Hr [Hd [_ Hs]]]]].
    assert (r = root') by congruence. subst r.
    split; [lia|]. intros _. now exists leaf.
Qed.

Lemma apply_writes_keeps writes : forall root final,
    apply_writes json_dumps valid_tag valid_text writes root = Some final ->
    size root <= size final
    /\ forall names e,
         descend names root = Some e ->
         exists e', descend names final = Some e'
                    /\ ns e' = ns e /\ tag e' = tag e /\ attrib e' = attrib e.
Proof.
  induction writes as [|[ref v] rest IH]; intros root final H; simpl in H.
  - injection H as <-. split; [lia|]. intros names e Hd. exists e. auto.
  - destruct (_set_value_by_ref json_dumps valid_tag valid_text root ref v) as [root1|] eqn:E;
      [|discriminate].
    destruct (IH root1 final H) as [Hsize Hkeep].
    destruct (set_value_grows _ _ _ _ E) as [Hs1 _].
    split; [lia|]. intros names e Hd.
    destruct (set_value_keeps json_dumps valid_tag valid_text root root1 ref v names e E Hd)
      as [e1 [Hd1 [Hn1 [Ht1 Ha1]]]].
    destruct (Hkeep names e1 Hd1) as [e' [Hd' [Hn' [Ht' Ha']]]].
    exists e'. repeat split; congruence.
Qed.

Lemma apply_writes_creates writes : forall root final ref v,
    apply_writes json_dumps valid_tag valid_text writes root = Some final ->
    In (ref, v) writes ->
    path_parts ref <> [] ->
    exists leaf, descend (path_names ref) final = Some leaf.
Proof.
  induction writes as [|[r0 v0] rest IH]; intros root final ref v H Hin Hparts;
    [destruct Hin|].
  simpl in H.
  destruct (_set_value_by_ref json_dumps valid_tag valid_text root r0 v0) as [root1|] eqn:E;
    [|discriminate].
  destruct Hin as [[= -> ->]|Hin].
  - destruct (set_value_grows _ _ _ _ E) as [_ Hleaf].
    destruct (Hleaf Hparts) as [leaf Hd].
    destruct (proj2 (apply_writes_keeps rest root1 final H) _ _ Hd)
      as [e' [Hd' _]].
    now exists e'.
  - now apply (IH root1 final ref v).
Qed.

End FillFacts.

(** X17. When the writes of a fill all return, every element that a chain
    of names reached in the data before is reached by it afterwards, each
    reference written leads to an element, and the tree has not shrunk.
    A key of the JSON object that is neither a name nor a reference of
    the bindings is always written as a reference of its own. *)
Theorem fill_writes_keep_and_create :
  forall (json_dumps : value -> string) (valid_tag valid_text : string -> bool)
         (bindings som_paths : dict string) (json_obj : dict value)
         (data_root final : element),
    apply_writes json_dumps valid_tag valid_text
      (fill_writes bindings som_paths json_obj) data_root = Some final ->
    size data_root <= size final
    /\ (forall names e,
          descend names data_root = Some e ->
          exists e', descend names final = Some e'
                     /\ ns e' = ns e /\ tag e' = tag e /\ attrib e' = attrib e)
    /\ (forall ref v,
          In (ref, v) (fill_writes bindings som_paths json_obj) ->
          path_parts ref <> [] ->
          exists leaf, descend (path_names ref) final = Some leaf)
    /\ (forall k v,
          In (k, v) json_obj ->
          ~ In k (dict_keys bindings) -> ~ In k (map snd bindings) ->
          In (k, v) (fill_writes bindings som_paths json_obj)).
Proof.
  intros json_dumps valid_tag valid_text bindings som_paths json_obj data_root final H.
  destruct (apply_writes_keeps _ _ _ _ _ _ H) as [Hsize Hkeep].
  split; [exact Hsize|]. split; [exact Hkeep|]. split.
  - intros ref v Hin Hparts.
    now apply (apply_writes_creates _ _ _ _ _ _ ref v H Hin).
  - intros k v Hin Hk Hv. unfold fill_writes.
    apply in_app_iff. right. apply in_app_iff. right. apply in_app_iff. right.
    apply in_flat_map. exists (k, v). split; [exact Hin|]. simpl.
    assert (E1 : mem k (dict_keys bindings) = false).
    { destruct (mem k (dict_keys bindings)) eqn:E; [|reflexivity].
      apply mem_In in E. contradiction. }
    assert (E2 : mem k (map snd bindings) = false).
    { destruct (mem k (map snd bindings)) eqn:E; [|reflexivity].
      apply mem_In in E. contradiction. }
    rewrite E1, E2. now left.
Qed.

Lemma fill_writes_keep_and_create_witness :
  exists leaf,
    descend ["note"]
      (mkElem None "data" [] None
         [mkElem None "mail" [] (Some "a@b.com") [];
          mkElem None "form1" [] None [mkElem None "Email" [] (Some "a@b.com") []];
          mkElem None "note" [] (Some "hi") []])
    = Some leaf.
Proof.
  destruct (fill_writes_keep_and_create (fun _ => "[]") (fun n => nonempty n) (fun _ => true)
              [("Email", "mail")] [("Email", "form1.Email")]
              [("Email", VStr "a@b.com"); ("note", VStr "hi")]
              (mkElem None "data" [] None [])
              (mkElem None "data" [] None
                 [mkElem None "mail" [] (Some "a@b.com") [];
                  mkElem None "form1" [] None
                    [mkElem None "Email" [] (Some "a@b.com") []];
                  mkElem None "note" [] (Some "hi") []])
              eq_refl) as [_ [_ [Hcreate Hfree]]].
  apply (Hcreate "note" (VStr "hi")).
  - apply Hfree.
    + simpl. auto.
    + simpl. intros [H|[]]. discriminate.
    + simpl. intros [H|[]]. discriminate.
  - discriminate.
Defined.

(** ** Widgets and entries *)

Section WidgetsAndEntries.


Lemma flatten_entries fields e :
  In e (flatten_all_fields fields) ->
  exists node,
    In node (forest_nodes fields) /\ has_type node = true
    /\ e = entry_of_node node.
Proof.
  intro Hin. rewrite flatten_nodes in Hin.
  apply in_map_iff in Hin. destruct Hin as [node [<- Hnode]].
  apply filter_In in Hnode. destruct Hnode as [Hnode Htyped].
  now exists node.
Qed.

End WidgetsAndEntries.



(** X19. A button of the flattened table whose field has no widget kid,
    as a check box that is its own widget, is switched off by every
    value: with no widget there is no candidate, and the stored value
    becomes ["/Off"], also for [True]. *)
Theorem button_without_widgets_is_off :
  forall (py_str : value -> string) (fields : list pdfobj) (e : entry)
         (val : value),
    In e (flatten_all_fields fields) ->
    FT (field e) = Some "Btn" ->
    is_push_button (get_field_flags (field e)) = false ->
    widgets_of (field e) = [] ->
    apply_value_to_field py_str e val =
    Ok (mkEntry (name e) (set_V (field e) (PdfName "/Off")) []).
Proof.
  intros py_str fields e val Hin Hft Hpush Hw.
  destruct (flatten_entries fields e Hin) as [node [_ [_ ->]]].
  unfold apply_value_to_field. simpl in *. rewrite Hft. simpl.
  rewrite Hw. unfold set_checkbox_or_radio. rewrite Hpush. simpl.
  destruct (is_radio (get_field_flags (snd node))); reflexivity.
Qed.

Lemma button_without_widgets_is_off_witness :
  apply_value_to_field (fun _ => "True")
    (mkEntry "agree"
       (mkObj (Some "agree") (Some "Btn") None (Some "Widget")
          (Some (mkAP (Some ["Off"; "Yes"]))) None None []) [])
    (VBool true)
  = Ok (mkEntry "agree"
          (set_V (mkObj (Some "agree") (Some "Btn") None (Some "Widget")
                    (Some (mkAP (Some ["Off"; "Yes"]))) None None [])
             (PdfName "/Off")) []).
Proof.
  apply (button_without_widgets_is_off (fun _ => "True")
           [mkObj (Some "agree") (Some "Btn") None (Some "Widget")
              (Some (mkAP (Some ["Off"; "Yes"]))) None None []]);
    try reflexivity.
  simpl. auto.
Defined.
